(** * Baseball statistics dashboard: importer, tolerant reader and views

    A shallow embedding of [src/import_csvs.py] (the CSV importer) and
    [src/app.py] (the tolerant table reader and the four dashboard views),
    with the properties the specification states about them. *)

From Stdlib Require Import ZArith String Ascii List Permutation Sorted Lia.
From Stdlib Require Import Floats.PrimFloat.
From stdpp Require Import base option list sorting strings pretty gmap.

Local Open Scope string_scope.
Local Open Scope Z_scope.
Local Open Scope list_scope.

(** ** Frames

    A pandas [DataFrame] is column-major: an index (here only its length
    matters) and an ordered list of named columns.  A cell is SQLite's
    NULL (pandas' NaN/None), an INTEGER, a REAL or a TEXT. *)

Inductive value : Type :=
| NaN
| VInt (z : Z)
| VFloat (f : float)
| VStr (s : string).

Record DataFrame : Type := mkDataFrame {
  nrows : nat;                            (* len(df.index) *)
  series : list (string * list value)     (* the columns, in order *)
}.

(** [df.columns] *)
Definition columns (df : DataFrame) : list string := map fst (series df).

(** [df.empty]: some axis has length zero. *)
Definition empty (df : DataFrame) : bool :=
  (Nat.eqb (nrows df) 0 || Nat.eqb (length (series df)) 0)%bool.

(** [pd.DataFrame(columns=cols)]: no rows, the given columns. *)
Definition DataFrame_columns (cols : list string) : DataFrame :=
  {| nrows := 0%nat; series := map (fun c => (c, [])) cols |}.

(** [df[c]] for one label; [None] is pandas' [KeyError]. *)
Definition getitem (df : DataFrame) (c : string) : option (list value) :=
  (fun hit => snd (snd hit)) <$> list_find (fun s => fst s = c) (series df).

(** [df[keys]] for a list of labels: for each key in turn, the columns
    carrying that label; [None] ([KeyError]) when a key labels no column. *)
Definition getitem_list (df : DataFrame) (keys : list string) : option DataFrame :=
  if decide (Forall (fun c => c ∈ columns df) keys)
  then Some {| nrows := nrows df;
               series := flat_map (fun c => filter (fun s => fst s = c) (series df)) keys |}
  else None.

(** ** The store

    [baseball.db] as the dashboard and the importer see it through
    [sqlite3.connect]: either a file that is not a database (every
    statement raises [DatabaseError]) or a set of named tables. *)

Inductive connection : Type :=
| NotADatabase
| Database (tables : gmap string DataFrame).

(** [pd.read_sql_query(f"SELECT * FROM {table}", conn)]; [None] stands for
    any exception (no such table, unreadable file). *)
Definition read_sql_query (conn : connection) (table : string) : option DataFrame :=
  match conn with
  | NotADatabase => None
  | Database tables => tables !! table
  end.

(** ** The tolerant table reader ([app.py], [read_table]) *)

Definition EXPECTED_batting_avg : list string :=
  ["Name"; "Team"; "Year"; "Batting_Average"].
Definition EXPECTED_home_runs : list string :=
  ["Name"; "Career_Home_Runs"].
Definition EXPECTED_career_strikeouts : list string :=
  ["Name"; "League"; "Career_Strikeouts"].

Definition EXPECTED : list (string * list string) :=
  [("batting_avg", EXPECTED_batting_avg);
   ("home_runs", EXPECTED_home_runs);
   ("career_strikeouts", EXPECTED_career_strikeouts)].

(** [present = [c for c in cols if c in df.columns]] *)
Definition present_columns (df : DataFrame) (cols : list string) : list string :=
  filter (fun c => c ∈ columns df) cols.

Definition read_table (conn : connection) (table : string) (cols : list string)
  : DataFrame :=
  match read_sql_query conn table with
  | Some df =>
      let present := present_columns df cols in
      match present with
      | _ :: _ =>
          match getitem_list df present with
          | Some projection => projection
          | None => DataFrame_columns cols          (* except Exception *)
          end
      | [] => DataFrame_columns cols
      end
  | None => DataFrame_columns cols                  (* except Exception *)
  end.

(** [load_data]: the three reads the dashboard starts with. *)
Definition load_data (conn : connection) : DataFrame * DataFrame * DataFrame :=
  (read_table conn "batting_avg" EXPECTED_batting_avg,
   read_table conn "home_runs" EXPECTED_home_runs,
   read_table conn "career_strikeouts" EXPECTED_career_strikeouts).

(** ** Text ([str.strip], [str.replace])

    A Python [str] is held as its UTF-8 bytes. *)

Definition byte_in (a : ascii) (lo hi : N) : bool :=
  ((lo <=? N_of_ascii a) && (N_of_ascii a <=? hi))%N.
Definition byte_is (a : ascii) (n : N) : bool := (N_of_ascii a =? n)%N.

(** The code points Python's [str.isspace] accepts, by encoded length:
    U+0009..U+000D, U+001C..U+0020; U+0085, U+00A0; U+1680,
    U+2000..U+200A, U+2028, U+2029, U+202F, U+205F, U+3000. *)
Definition is_space1 (a : ascii) : bool :=
  byte_in a 9 13 || byte_in a 28 32.
Definition is_space2 (a b : ascii) : bool :=
  byte_is a 194 && (byte_is b 133 || byte_is b 160).
Definition is_space3 (a b c : ascii) : bool :=
  byte_is a 225 && byte_is b 154 && byte_is c 128
  || byte_is a 226 && byte_is b 128
     && (byte_in c 128 138 || byte_in c 168 169 || byte_is c 175)
  || byte_is a 226 && byte_is b 129 && byte_is c 159
  || byte_is a 227 && byte_is b 128 && byte_is c 128.

(** Drop leading white space; with [backwards] the text is read from its
    end, so the bytes of a code point arrive last byte first. *)
Fixpoint strip_leading (backwards : bool) (s : string) : string :=
  match s with
  | String a rest =>
      if is_space1 a then strip_leading backwards rest
      else match rest with
           | String b rest2 =>
               if (if backwards then is_space2 b a else is_space2 a b)
               then strip_leading backwards rest2
               else match rest2 with
                    | String c rest3 =>
                        if (if backwards then is_space3 c b a else is_space3 a b c)
                        then strip_leading backwards rest3
                        else s
                    | EmptyString => s
                    end
           | EmptyString => s
           end
  | EmptyString => s
  end.

(** [s.strip()] *)
Definition strip (s : string) : string :=
  String.rev (strip_leading true (String.rev (strip_leading false s))).

Fixpoint map_bytes (f : ascii → ascii) (s : string) : string :=
  match s with
  | String a rest => String (f a) (map_bytes f rest)
  | EmptyString => EmptyString
  end.

(** [s.replace(" ", "_")] *)
Definition replace_spaces (s : string) : string :=
  map_bytes (fun a => if byte_is a 32 then "_"%char else a) s.

(** ** The importer ([import_csvs.py]) *)

(** The CSV directory [data/]: whether it exists, and its files. *)
Record filesystem : Type := mkFilesystem {
  CSV_DIR_exists : bool;
  CSV_DIR_files : gmap string string     (* file name ↦ file text *)
}.

(** [(CSV_DIR / csv_name).exists()] and the file read there. *)
Definition csv_file (fs : filesystem) (csv_name : string) : option string :=
  if CSV_DIR_exists fs then CSV_DIR_files fs !! csv_name else None.

Definition csv_path (csv_name : string) : string := "data/" +:+ csv_name.

Inductive dtype : Type := dtype_str | dtype_Int64 | dtype_float.

(** The two pandas entry points whose results the importer only passes
    on: parsing a CSV text, and casting a column.  [None] is an
    exception. *)
Class Pandas : Type := {
  read_csv : string → option DataFrame;
  astype : dtype → list value → option (list value)
}.

Definition REQUIRED : list (string * string) :=
  [("batting_avg.csv", "batting_avg");
   ("home_runs.csv", "home_runs");
   ("career_strikeouts.csv", "career_strikeouts")].

Definition CSV_DTYPES : list (string * list (string * dtype)) :=
  [("batting_avg",
    [("Name", dtype_str); ("Team", dtype_str); ("Year", dtype_Int64);
     ("Batting_Average", dtype_float)]);
   ("home_runs",
    [("Name", dtype_str); ("Career_Home_Runs", dtype_Int64)]);
   ("career_strikeouts",
    [("Name", dtype_str); ("League", dtype_str);
     ("Career_Strikeouts", dtype_Int64)])].

(** Lookup in a [dict] kept in insertion order. *)
Definition dict_get {V} (d : list (string * V)) (k : string) : option V :=
  (fun hit => snd (snd hit)) <$> list_find (fun kv => fst kv = k) d.

(** [c.strip().replace(" ", "_")] *)
Definition normalize_column (c : string) : string := replace_spaces (strip c).

(** [df.columns = [... for c in df.columns]] *)
Definition rename_columns (f : string → string) (df : DataFrame) : DataFrame :=
  {| nrows := nrows df; series := map (fun s => (f (fst s), snd s)) (series df) |}.

(** [col.astype(typ, errors="ignore")]: the column itself when the cast
    raises. *)
Definition astype_ignore `{Pandas} (typ : dtype) (col : list value) : list value :=
  default col (astype typ col).

(** [if col in df.columns: df[col] = df[col].astype(typ, errors="ignore")] *)
Definition cast_column `{Pandas} (df : DataFrame) (col : string) (typ : dtype)
  : DataFrame :=
  if decide (col ∈ columns df)
  then {| nrows := nrows df;
          series := map (fun s => if decide (fst s = col)
                                  then (fst s, astype_ignore typ (snd s))
                                  else s) (series df) |}
  else df.

(** Lines 25-32 of [import_one]: the frame that is handed to [to_sql]. *)
Definition prepare `{Pandas} (table_name : string) (df : DataFrame) : DataFrame :=
  let df := rename_columns normalize_column df in
  match dict_get CSV_DTYPES table_name with
  | Some dtypes => foldl (fun df ct => cast_column df (fst ct) (snd ct)) df dtypes
  | None => df
  end.

(** SQLite compares identifiers without regard to ASCII case. *)
Definition sqlite_fold_case (s : string) : string :=
  map_bytes (fun a => if byte_in a 65 90
                      then ascii_of_N (N_of_ascii a + 32) else a) s.

(** pandas quotes every column name before it touches the store, and
    refuses an empty name or one with a NUL. *)
Definition valid_sqlite_name (c : string) : bool :=
  negb (String.eqb c "") && forallb (fun a => negb (byte_is a 0)) (list_ascii_of_string c).

(** [CREATE TABLE] needs at least one column and distinct names. *)
Definition create_table_ok (df : DataFrame) : bool :=
  bool_decide (columns df ≠ [] ∧ NoDup (map sqlite_fold_case (columns df))).

Inductive outcome : Type :=
| Returned
| Raised.          (* an exception leaves the function *)

(** [df.to_sql(table_name, conn, if_exists="replace", index=False)].
    pandas builds the statements (checking the names), then drops the
    existing table, then creates and fills the new one; SQLite commits
    the drop on its own, so a failing [CREATE TABLE] leaves no table. *)
Definition to_sql (df : DataFrame) (table_name : string) (conn : connection)
  : outcome * connection :=
  match conn with
  | NotADatabase => (Raised, NotADatabase)
  | Database tables =>
      if negb (forallb valid_sqlite_name (columns df)) then (Raised, conn)
      else if create_table_ok df
      then (Returned, Database (<[table_name := df]> tables))
      else (Raised, Database (delete table_name tables))
  end.

(** What the importer prints. *)
Inductive message : Type :=
| CSV_directory_not_found
| Skipping (table_name path : string)
| Loaded (csv_name table_name : string) (rows : nat)
| Tables_in_DB (names : gset string).

Definition import_one `{Pandas} (fs : filesystem) (csv_name table_name : string)
    (conn : connection) : outcome * connection * list message :=
  match csv_file fs csv_name with
  | None => (Returned, conn, [Skipping table_name (csv_path csv_name)])
  | Some text =>
      match read_csv text with
      | None => (Raised, conn, [])
      | Some df =>
          let df := prepare table_name df in
          match to_sql df table_name conn with
          | (Returned, conn') =>
              (Returned, conn', [Loaded csv_name table_name (nrows df)])
          | (Raised, conn') => (Raised, conn', [])
          end
      end
  end.

(** The [for] loop of [main]; an exception ends it. *)
Fixpoint import_each `{Pandas} (fs : filesystem) (pairs : list (string * string))
    (conn : connection) : outcome * connection * list message :=
  match pairs with
  | [] => (Returned, conn, [])
  | (csv_name, table) :: rest =>
      match import_one fs csv_name table conn with
      | (Returned, conn', out) =>
          let '(o, conn'', out') := import_each fs rest conn' in
          (o, conn'', out ++ out')
      | (Raised, conn', out) => (Raised, conn', out)
      end
  end.

(** [SELECT name FROM sqlite_master WHERE type='table'] *)
Definition table_names (conn : connection) : option (gset string) :=
  match conn with
  | NotADatabase => None
  | Database tables => Some (dom tables)
  end.

Definition main `{Pandas} (fs : filesystem) (db : connection)
  : outcome * connection * list message :=
  if negb (CSV_DIR_exists fs) then (Returned, db, [CSV_directory_not_found])
  else
    match import_each fs REQUIRED db with
    | (Returned, conn, out) =>
        match table_names conn with
        | Some names => (Returned, conn, out ++ [Tables_in_DB names])
        | None => (Raised, conn, out)
        end
    | (Raised, conn, out) => (Raised, conn, out)
    end.

(** A stored table with three columns, one of them not expected, and two
    rows. *)
Definition batting_with_extra : DataFrame :=
  {| nrows := 2;
     series := [("Team", [VStr "NYY"; VStr "BOS"]);
                ("Rank", [VInt 1; VInt 2]);
                ("Name", [VStr "Ruth"; VStr "Williams"])] |}.

(** A stored [batting_avg] table that lacks the [Year] and
    [Batting_Average] columns. *)
Definition batting_without_year : DataFrame :=
  {| nrows := 1;
     series := [("Name", [VStr "Ruth"]); ("Team", [VStr "NYY"])] |}.

(** *** The importer's effect, column by column *)

(** The cast a column label is declared to get, applied with
    [errors="ignore"]. *)
Definition declared_cast `{Pandas} (dtypes : list (string * dtype))
    (s : string * list value) : string * list value :=
  match dict_get dtypes (fst s) with
  | Some typ => (fst s, astype_ignore typ (snd s))
  | None => s
  end.

(** The normalized contents of a CSV: the parsed frame with every header
    stripped and its spaces replaced, and every column whose new label has
    a declared type cast to it where the cast succeeds. *)
Definition normalized_contents `{Pandas} (table_name : string) (df : DataFrame)
  : DataFrame :=
  {| nrows := nrows df;
     series := map (fun s => declared_cast (default [] (dict_get CSV_DTYPES table_name))
                               (normalize_column (fst s), snd s))
                   (series df) |}.

(** Whether [import_one] gets through a file's text without an
    exception. *)
Definition importable `{Pandas} (table_name text : string) : bool :=
  match read_csv text with
  | Some df =>
      forallb valid_sqlite_name (columns (prepare table_name df))
      && create_table_ok (prepare table_name df)
  | None => false
  end.

(** *** A stand-in for pandas, for the examples

    It reads plain CSV text (no quoting; a cell is empty, an integer in
    decimal digits, or text) and casts only where no conversion of a
    REAL is needed; what it cannot cast raises. *)

Fixpoint split_on (sep : ascii) (s : string) : list string :=
  match s with
  | EmptyString => [EmptyString]
  | String a rest =>
      if decide (a = sep) then EmptyString :: split_on sep rest
      else match split_on sep rest with
           | field :: fields => String a field :: fields
           | [] => [String a EmptyString]
           end
  end.

Definition parse_digits (s : string) : option Z :=
  foldl (fun acc a => z ← acc; d ← Ascii.is_nat a; Some (10 * z + Z.of_nat d))
        (Some 0) (list_ascii_of_string s).

Definition parse_cell (s : string) : value :=
  if decide (s = "") then NaN
  else match parse_digits s with
       | Some z => VInt z
       | None => VStr s
       end.

Definition newline : ascii := ascii_of_N 10.

Definition plain_read_csv (text : string) : option DataFrame :=
  match filter (fun line => line ≠ "") (split_on newline text) with
  | [] => None
  | header :: lines =>
      let names := split_on "," header in
      let rows := map (fun line => map parse_cell (split_on "," line)) lines in
      if forallb (fun row => Nat.eqb (length row) (length names)) rows
      then Some {| nrows := length rows;
                   series := imap (fun i c => (c, map (fun row => nth i row NaN) rows))
                                  names |}
      else None
  end.

Definition plain_astype (typ : dtype) (col : list value) : option (list value) :=
  mapM (fun v =>
          match typ, v with
          | dtype_str, NaN => Some (VStr "nan")
          | dtype_str, VInt z => Some (VStr (pretty z))
          | dtype_str, VStr s => Some (VStr s)
          | dtype_Int64, (NaN | VInt _) => Some v
          | dtype_float, (NaN | VFloat _) => Some v
          | _, _ => None
          end) col.

Definition plain_pandas : Pandas :=
  {| read_csv := plain_read_csv; astype := plain_astype |}.

Definition line (s : string) : string := s +:+ String newline "".

(** A [data/] directory without [batting_avg.csv]. *)
Definition two_files : filesystem :=
  {| CSV_DIR_exists := true;
     CSV_DIR_files :=
       {[ "home_runs.csv" :=
            line "Name, Career Home Runs" +:+ line "Ruth,714" +:+ line "Aaron,755";
          "career_strikeouts.csv" :=
            line "Name,League,Career Strikeouts" +:+ line "Ryan,AL,5714"
            +:+ line "Johnson,,4875" ]} |}.

Definition old_store : gmap string DataFrame :=
  {[ "batting_avg" := batting_with_extra;
     "home_runs" := DataFrame_columns ["Name"];
     "notes" := DataFrame_columns ["Text"] ]}.

(** ** Tables with the expected schema

    Read with all its expected columns, a table is held as the list of its
    rows.  A cell of a nullable column is [None] where pandas has NaN or
    None; an integer cell is the integer it holds, whether pandas keeps
    the column as int64 or, because of a NULL, as float64.  Comparisons
    of integer cells are those of the integers; a running sum is taken in
    the arithmetic of the column's dtype (see [cumsum]).  The cells of an
    int64 column lie between -2^63 and 2^63 - 1, and those of a float64
    column are integers that are doubles. *)

Record BattingRecord : Type := mkBatting {
  batting_Name : option string;
  Team : option string;
  Year : option Z;
  Batting_Average : option float
}.

Record HomeRunRecord : Type := mkHomeRun {
  hr_Name : option string;
  Career_Home_Runs : option Z
}.

Record StrikeoutRecord : Type := mkStrikeout {
  k_Name : option string;
  League : option string;
  Career_Strikeouts : option Z
}.

(** What a view puts on the page: an [st.info]/[st.write] note, the rows
    handed to a chart or table, or nothing at all. *)
Inductive display (A : Type) : Type :=
| Note (text : string)
| Rows (rows : list A)
| Blank.
Arguments Note {A} text.
Arguments Rows {A} rows.
Arguments Blank {A}.

(** The rows a view shows; a note shows none. *)
Definition shown {A} (d : display A) : list A :=
  match d with
  | Rows rows => rows
  | Note _ | Blank => []
  end.

(** [df.empty] for a table held by its rows. *)
Definition no_rows {A} (df : list A) : bool :=
  match df with [] => true | _ :: _ => false end.

(** *** Column operations *)

(** [col.dropna()] *)
Definition dropna {A} (col : list (option A)) : list A := omap id col.

(** [col.unique()]: the distinct values, in order of first appearance. *)
Definition unique {A} `{EqDecision A} (col : list A) : list A := remove_dups col.

(** Python's [sorted] on integers and on text. *)
Definition sorted_ints (l : list Z) : list Z := merge_sort Z.le l.
Definition sorted_texts (l : list string) : list string := merge_sort String.le l.

(** [col.isin(values)]; NaN is in no list of selected values. *)
Definition isin {A} `{EqDecision A} (cell : option A) (values : list A) : bool :=
  match cell with
  | Some v => bool_decide (v ∈ values)
  | None => false
  end.

(** [col >= threshold]; NaN compares false. *)
Definition ge_scalar (cell : option Z) (threshold : Z) : bool :=
  match cell with
  | Some v => threshold <=? v
  | None => false
  end.

(** [col == text]; NaN compares false. *)
Definition eq_scalar (cell : option string) (text : string) : bool :=
  match cell with
  | Some v => bool_decide (v = text)
  | None => false
  end.

(** How pandas holds a column of integers read from the store: as
    [int64], or as [float64] when a cell of the column is NULL.  Selecting
    and reordering rows keep the dtype of the column. *)
Inductive storage : Type := int64 | float64.

Definition dtype_of (col : list (option Z)) : storage :=
  if forallb (fun cell => bool_decide (is_Some cell)) col then int64 else float64.

(** Addition in [int64] wraps around. *)
Definition wrap_int64 (z : Z) : Z := (z + 2 ^ 63) mod 2 ^ 64 - 2 ^ 63.

(** Addition in [float64] gives the double nearest to the sum, a tie going
    to the even significand of 53 bits.  (A cell is at most 2^63 in
    magnitude, so no sum of a column reaches the largest double.) *)
Definition round_float64 (z : Z) : Z :=
  let m := Z.abs z in
  let dropped := Z.log2 m - 52 in
  if dropped <=? 0 then z
  else
    let q := m / 2 ^ dropped in
    let r := m mod 2 ^ dropped in
    let half := 2 ^ (dropped - 1) in
    let q := if (half <? r) || ((r =? half) && Z.odd q) then q + 1 else q in
    Z.sgn z * (q * 2 ^ dropped).

Definition add_in (t : storage) (a b : Z) : Z :=
  match t with
  | int64 => wrap_int64 (a + b)
  | float64 => round_float64 (a + b)
  end.

(** [col.cumsum()] on a column held as [t]: the running sum in the
    arithmetic of [t]; a NaN cell stays NaN and adds nothing to the cells
    after it. *)
Fixpoint cumsum_from (t : storage) (total : Z) (col : list (option Z))
  : list (option Z) :=
  match col with
  | [] => []
  | Some v :: rest => Some (add_in t total v) :: cumsum_from t (add_in t total v) rest
  | None :: rest => None :: cumsum_from t total rest
  end.
Definition cumsum (t : storage) (col : list (option Z)) : list (option Z) :=
  cumsum_from t 0 col.

(** *** Sorting ([DataFrame.sort_values])

    [sort_values] is called without [kind], so pandas sorts the key column
    with its default, NumPy's [argsort(kind="quicksort")].  pandas and
    NumPy document that routine as not stable (only [kind="mergesort"] and
    [kind="stable"] are): it returns the indices ordered by key and
    promises nothing about the order of equal keys, which depends on the
    length of the column and on the build of NumPy.  So it is taken as an
    interface, with that contract. *)
Class Argsort : Type := {
  argsort : list Z → list nat;
  argsort_Permutation : ∀ keys, argsort keys ≡ₚ seq 0 (length keys);
  argsort_Sorted : ∀ keys, Sorted Z.le (omap (fun i => keys !! i) (argsort keys))
}.

(** [items[i]], NaN also out of range. *)
Definition item (items : list (option Z)) (i : nat) : option Z := mjoin (items !! i).

(** pandas' [nargsort] with [na_position="last"]: the non-NaN items are
    sorted (for a descending sort: reversed, sorted, and the result
    reversed again) and the NaN positions follow. *)
Definition nargsort `{Argsort} (items : list (option Z)) (ascending : bool)
  : list nat :=
  let idx := seq 0 (length items) in
  let non_nan_idx := filter (fun i => is_Some (item items i)) idx in
  let nan_idx := filter (fun i => ¬ is_Some (item items i)) idx in
  let non_nan_idx := if ascending then non_nan_idx else reverse non_nan_idx in
  let non_nans := omap (item items) non_nan_idx in
  let indexer := omap (fun j => non_nan_idx !! j) (argsort non_nans) in
  let indexer := if ascending then indexer else reverse indexer in
  indexer ++ nan_idx.

(** [df.take(indexer)] *)
Definition frame_take {A} (rows : list A) (indexer : list nat) : list A :=
  omap (fun i => rows !! i) indexer.

(** [df.sort_values(by, ascending=...)] *)
Definition sort_values `{Argsort} {A} (by_ : A → option Z) (ascending : bool)
    (rows : list A) : list A :=
  frame_take rows (nargsort (map by_ rows) ascending).

(** *** The sidebar *)

Definition all_years (df_batting : list BattingRecord) : list Z :=
  sorted_ints (unique (dropna (map Year df_batting))).
Definition all_teams (df_batting : list BattingRecord) : list string :=
  sorted_texts (unique (dropna (map Team df_batting))).
Definition leagues (df_career_strikeouts : list StrikeoutRecord) : list string :=
  sorted_texts (unique (dropna (map League df_career_strikeouts))).
Definition player_list (df_batting : list BattingRecord) : list string :=
  sorted_texts (unique (dropna (map batting_Name df_batting))).

(** *** Chart 1: batting average over time *)

Definition time_series (df_batting : list BattingRecord)
    (years : list Z) (teams : list string) : display BattingRecord :=
  if no_rows df_batting then Note "No batting average data found. Ensure `data/batting_avg.csv` (or DB table) is loaded."
  else
    let df_line := df_batting in
    let df_line := match years with
                   | [] => df_line
                   | _ :: _ => filter (fun r => isin (Year r) years) df_line
                   end in
    let df_line := match teams with
                   | [] => df_line
                   | _ :: _ => filter (fun r => isin (Team r) teams) df_line
                   end in
    if no_rows df_line then Note "No rows match the selected Year/Team filters."
    else Rows df_line.

(** *** Chart 2: career home runs *)

Definition ranking_view `{Argsort} (df_home_runs : list HomeRunRecord)
    (min_home_runs : option Z) : display HomeRunRecord :=
  match no_rows df_home_runs, min_home_runs with
  | false, Some threshold =>
      let df_hr := filter (fun r => ge_scalar (Career_Home_Runs r) threshold)
                          df_home_runs in
      if no_rows df_hr
      then Note "No players meet the selected minimum career home runs."
      else Rows (sort_values Career_Home_Runs false df_hr)
  | _, _ => Note "No home run data found. Ensure `data/home_runs.csv` (or DB table) is loaded."
  end.

(** *** Chart 3: cumulative career strikeouts of a league *)

Definition cumulative_view `{Argsort} (df_career_strikeouts : list StrikeoutRecord)
    (league : option string) : display (StrikeoutRecord * option Z) :=
  match no_rows df_career_strikeouts, league with
  | false, Some league =>
      let df_k := filter (fun r => eq_scalar (League r) league)
                         df_career_strikeouts in
      let df_k := sort_values Career_Strikeouts true df_k in
      if no_rows df_k
      then Note ("No strikeout data for league '" +:+ league +:+ "'.")
      else
        let t := dtype_of (map Career_Strikeouts df_career_strikeouts) in
        Rows (zip df_k (cumsum t (map Career_Strikeouts df_k)))
  | _, _ => Note "No career strikeouts data found. Ensure `data/career_strikeouts.csv` (or DB table) is loaded."
  end.

(** *** Sorting routines that meet the interface

    An insertion sort of the index array, which inserts an index after the
    indices of equal keys when [before] is [<]. *)

Definition key_at (keys : list Z) (i : nat) : Z := default 0 (keys !! i).

Fixpoint insert_index (before : Z → Z → bool) (keys : list Z) (i : nat)
    (sorted : list nat) : list nat :=
  match sorted with
  | [] => [i]
  | j :: rest =>
      if before (key_at keys i) (key_at keys j) then i :: j :: rest
      else j :: insert_index before keys i rest
  end.

Definition insertion_argsort (before : Z → Z → bool) (keys : list Z) : list nat :=
  foldl (fun sorted i => insert_index before keys i sorted) [] (seq 0 (length keys)).

(** *** NumPy's [argsort(kind="quicksort")]

    The scalar routine NumPy has for the index sort of an [int64] or
    [float64] array, [aquicksort] of [npysort/quicksort]: an introsort of
    the index array [tosort].  A range of more than 17 indices is
    partitioned around the median of three keys; a shorter range is sorted
    by insertion; and a range reached after more partitions than twice the
    binary logarithm of the length is sorted by [aheapsort].  Pointers
    into [tosort] are positions; the explicit stack holds the ranges still
    to sort, each with the depth left for it. *)

Definition SMALL_QUICKSORT : nat := 16.

(** [v[*p]], and [INTP_SWAP] of the indices at two positions. *)
Definition key_of (keys : list Z) (tosort : list nat) (p : nat) : Z :=
  key_at keys (default 0%nat (tosort !! p)).

Definition INTP_SWAP (tosort : list nat) (p q : nat) : list nat :=
  match tosort !! p, tosort !! q with
  | Some x, Some y => <[q := x]> (<[p := y]> tosort)
  | _, _ => tosort
  end.

Definition median_of_three (keys : list Z) (tosort : list nat) (pl pm pr : nat)
  : list nat :=
  let tosort := if key_of keys tosort pm <? key_of keys tosort pl
                then INTP_SWAP tosort pm pl else tosort in
  let tosort := if key_of keys tosort pr <? key_of keys tosort pm
                then INTP_SWAP tosort pr pm else tosort in
  if key_of keys tosort pm <? key_of keys tosort pl
  then INTP_SWAP tosort pm pl else tosort.

(** [do ++pi; while (v[*pi] < vp);] *)
Fixpoint scan_up (fuel : nat) (keys : list Z) (tosort : list nat) (vp : Z)
    (pi : nat) : nat :=
  match fuel with
  | O => pi
  | S fuel =>
      let pi := S pi in
      if key_of keys tosort pi <? vp then scan_up fuel keys tosort vp pi else pi
  end.

(** [do --pj; while (vp < v[*pj]);] *)
Fixpoint scan_down (keys : list Z) (tosort : list nat) (vp : Z) (pj : nat) : nat :=
  match pj with
  | O => O
  | S pj => if vp <? key_of keys tosort pj then scan_down keys tosort vp pj else pj
  end.

(** The [for (;;)] loop of the partition. *)
Fixpoint partition_loop (fuel : nat) (keys : list Z) (vp : Z) (tosort : list nat)
    (pi pj : nat) : list nat * nat :=
  match fuel with
  | O => (tosort, pi)
  | S fuel =>
      let pi := scan_up (length tosort) keys tosort vp pi in
      let pj := scan_down keys tosort vp pj in
      if (pj <=? pi)%nat then (tosort, pi)
      else partition_loop fuel keys vp (INTP_SWAP tosort pi pj) pi pj
  end.

Definition partition (keys : list Z) (tosort : list nat) (pl pr : nat)
  : list nat * nat :=
  let pm := (pl + (pr - pl) / 2)%nat in
  let tosort := median_of_three keys tosort pl pm pr in
  let vp := key_of keys tosort pm in
  let pj := (pr - 1)%nat in
  let tosort := INTP_SWAP tosort pm pj in
  let '(tosort, pi) := partition_loop (length tosort) keys vp tosort pl pj in
  (INTP_SWAP tosort pi (pr - 1), pi).

(** The [while ((pr - pl) > SMALL_QUICKSORT)] loop: partition, push the
    larger part, go on with the smaller. *)
Fixpoint partitions (fuel : nat) (keys : list Z) (tosort : list nat) (pl pr : nat)
    (cdepth : Z) (stack : list (nat * nat * Z))
  : list nat * nat * nat * list (nat * nat * Z) :=
  match fuel with
  | O => (tosort, pl, pr, stack)
  | S fuel =>
      if (SMALL_QUICKSORT <? pr - pl)%nat
      then
        let '(tosort, pi) := partition keys tosort pl pr in
        let cdepth := cdepth - 1 in
        if (pi - pl <? pr - pi)%nat
        then partitions fuel keys tosort pl (pi - 1) cdepth
                        ((S pi, pr, cdepth) :: stack)
        else partitions fuel keys tosort (S pi) pr cdepth
                        ((pl, (pi - 1)%nat, cdepth) :: stack)
      else (tosort, pl, pr, stack)
  end.

(** The insertion sort of the positions [pl..pr]. *)
Fixpoint shift_up (keys : list Z) (pl : nat) (vp : Z) (tosort : list nat)
    (pj : nat) : list nat * nat :=
  match pj with
  | O => (tosort, O)
  | S pk =>
      if (pl <? pj)%nat && (vp <? key_of keys tosort pk)
      then shift_up keys pl vp (<[pj := default 0%nat (tosort !! pk)]> tosort) pk
      else (tosort, pj)
  end.

Definition insert_position (keys : list Z) (pl : nat) (tosort : list nat) (pi : nat)
  : list nat :=
  let vi := default 0%nat (tosort !! pi) in
  let '(tosort, pj) := shift_up keys pl (key_at keys vi) tosort pi in
  <[pj := vi]> tosort.

Definition insertion_sort (keys : list Z) (tosort : list nat) (pl pr : nat)
  : list nat :=
  foldl (insert_position keys pl) tosort (seq (S pl) (pr - pl)).

(** [aheapsort] on the [n] positions from [pl]; [a = tosort + pl - 1] is
    indexed from 1. *)
Definition heap_get (tosort : list nat) (pl i : nat) : nat :=
  default 0%nat (tosort !! (pl + i - 1)%nat).
Definition heap_set (tosort : list nat) (pl i x : nat) : list nat :=
  <[(pl + i - 1)%nat := x]> tosort.

Fixpoint sift (fuel : nat) (keys : list Z) (pl n tmp : nat) (tosort : list nat)
    (i j : nat) : list nat :=
  match fuel with
  | O => heap_set tosort pl i tmp
  | S fuel =>
      if (j <=? n)%nat
      then
        let j := if (j <? n)%nat
                    && (key_at keys (heap_get tosort pl j)
                        <? key_at keys (heap_get tosort pl (S j)))
                 then S j else j in
        if key_at keys tmp <? key_at keys (heap_get tosort pl j)
        then sift fuel keys pl n tmp (heap_set tosort pl i (heap_get tosort pl j))
                  j (j + j)
        else heap_set tosort pl i tmp
      else heap_set tosort pl i tmp
  end.

Definition aheapsort (keys : list Z) (tosort : list nat) (pl n : nat) : list nat :=
  let tosort :=
    foldl (fun tosort l => sift n keys pl n (heap_get tosort pl l) tosort l (l + l))
          tosort (reverse (seq 1 (n / 2))) in
  foldl (fun tosort n =>
           let tmp := heap_get tosort pl n in
           let tosort := heap_set tosort pl n (heap_get tosort pl 1) in
           sift n keys pl (n - 1) tmp tosort 1 2)
        tosort (reverse (seq 2 (n - 1))).

(** The outer [while (1)] loop. *)
Fixpoint aquicksort_loop (fuel : nat) (keys : list Z) (tosort : list nat)
    (pl pr : nat) (cdepth : Z) (stack : list (nat * nat * Z)) : list nat :=
  match fuel with
  | O => tosort
  | S fuel =>
      let '(tosort, stack) :=
        if cdepth <? 0
        then (aheapsort keys tosort pl (pr - pl + 1), stack)
        else
          let '(tosort, pl, pr, stack) :=
            partitions (length tosort) keys tosort pl pr cdepth stack in
          (insertion_sort keys tosort pl pr, stack) in
      match stack with
      | [] => tosort
      | (pl, pr, cdepth) :: stack => aquicksort_loop fuel keys tosort pl pr cdepth stack
      end
  end.

(** [np.argsort(keys, kind="quicksort")]: the indices [0..num-1], sorted
    by [aquicksort]. *)
Definition aquicksort (keys : list Z) : list nat :=
  let num := length keys in
  match num with
  | O => []
  | S _ =>
      aquicksort_loop (S num) keys (seq 0 num) 0 (num - 1)
                      (2 * Z.log2 (Z.of_nat num)) []
  end.

(** Whether an index array is an arrangement of the indices of [keys]
    that puts the keys in ascending order. *)
Definition is_argsort (keys : list Z) (indexer : list nat) : bool :=
  bool_decide (merge_sort le indexer = seq 0 (length keys))
  && bool_decide (Sorted Z.le (omap (fun i => keys !! i) indexer)).

(** [aquicksort] as the routine behind [sort_values].  That its result is
    always such an arrangement is not proved here; the result is checked,
    and the insertion sort stands in should the check ever fail. *)
Definition numpy_argsort (keys : list Z) : list nat :=
  let indexer := aquicksort keys in
  if is_argsort keys indexer then indexer else insertion_argsort Z.ltb keys.

(** ** Notions used in the statements *)

(** What [pd.DataFrame(columns=cols)] looks like from outside: no rows,
    and exactly the labels [cols], each an empty column. *)
Definition empty_with_schema (df : DataFrame) (cols : list string) : Prop :=
  nrows df = 0%nat ∧ columns df = cols ∧ ∀ c, c ∈ cols → getitem df c = Some [].

(** The positions of the non-NaN items, in the order [nargsort] hands
    them to [argsort]. *)
Definition non_nan_positions (items : list (option Z)) (ascending : bool)
  : list nat :=
  let non_nan_idx := filter (fun i => is_Some (item items i)) (seq 0 (length items)) in
  if ascending then non_nan_idx else reverse non_nan_idx.

(** The order [sort_values] establishes on a key column: by value in the
    requested direction, NaN after every value. *)
Definition na_last (ascending : bool) (a b : option Z) : Prop :=
  match a, b with
  | Some x, Some y => if ascending then x ≤ y else y ≤ x
  | _, None => True
  | None, Some _ => False
  end.


(** The sum of cells as integers: NaN plus anything is NaN. *)
Definition nan_add (a b : option Z) : option Z :=
  match a, b with
  | Some x, Some y => Some (x + y)
  | _, _ => None
  end.
Definition nan_sum (col : list (option Z)) : option Z := foldr nan_add (Some 0) col.

(** The magnitude up to which a sum in a dtype is the sum of the integers:
    the largest [int64], and the end of the range in which every integer
    is a double. *)
Definition exact_up_to (t : storage) : Z :=
  match t with
  | int64 => 2 ^ 63 - 1
  | float64 => 2 ^ 53
  end.

(** The magnitudes of the cells of a column that are not NaN, added up. *)
Definition sum_abs (col : list (option Z)) : Z :=
  foldr (fun v total => Z.abs v + total) 0 (dropna col).

(** [col.sum()]: the sum of the cells that are not NaN, as an integer. *)
Definition sum_values (col : list (option Z)) : Z := foldr Z.add 0 (dropna col).

(** The running sum of a column as a sum of integers: what [cumsum]
    computes as long as its arithmetic is exact. *)
Fixpoint running_sum_from (total : Z) (col : list (option Z)) : list (option Z) :=
  match col with
  | [] => []
  | Some v :: rest => Some (total + v) :: running_sum_from (total + v) rest
  | None :: rest => None :: running_sum_from total rest
  end.
Definition running_sum (col : list (option Z)) : list (option Z) :=
  running_sum_from 0 col.

(** ** Example tables *)

(** Two players tied at 521 career home runs, and one ahead of them. *)
Definition Williams : HomeRunRecord := mkHomeRun (Some "Williams") (Some 521).
Definition McCovey : HomeRunRecord := mkHomeRun (Some "McCovey") (Some 521).
Definition Mantle : HomeRunRecord := mkHomeRun (Some "Mantle") (Some 536).


Definition strikeouts_40_10_25 : list StrikeoutRecord :=
  [mkStrikeout (Some "A") (Some "AL") (Some 40);
   mkStrikeout (Some "B") (Some "NL") (Some 99);
   mkStrikeout (Some "C") (Some "AL") (Some 10);
   mkStrikeout (Some "D") (Some "AL") (Some 25)].

(** Two counts whose sum is beyond [int64], and a league with a row that
    has no count. *)
Definition strikeouts_wrapping : list StrikeoutRecord :=
  [mkStrikeout (Some "A") (Some "AL") (Some (2 ^ 62));
   mkStrikeout (Some "B") (Some "AL") (Some (2 ^ 62))].

Definition strikeouts_missing : list StrikeoutRecord :=
  [mkStrikeout (Some "A") (Some "AL") (Some 40);
   mkStrikeout (Some "B") (Some "AL") None;
   mkStrikeout (Some "C") (Some "AL") (Some 10)].

(** *** Combined stats for a player *)

(** [left.merge(right, on="Name", how="left")]: every left row, in order,
    paired with each right row of the same [Name], or with nothing when
    there is none. *)
Definition merge_left {L R} (left_Name : L → option string)
    (right_Name : R → option string) (left : list L) (right : list R)
  : list (L * option R) :=
  l ← left;
  match filter (fun r => right_Name r = left_Name l) right with
  | [] => [(l, None)]
  | matches => (fun r => (l, Some r)) <$> matches
  end.

Definition cell_int (cell : option Z) : value :=
  match cell with Some z => VInt z | None => NaN end.
Definition cell_float (cell : option float) : value :=
  match cell with Some f => VFloat f | None => NaN end.
Definition cell_text (cell : option string) : value :=
  match cell with Some s => VStr s | None => NaN end.

(** A row of [df_combined]: a batting row with what the two merges
    attached to it. *)
Definition combined_row : Type :=
  BattingRecord * option HomeRunRecord * option StrikeoutRecord.

(** [df_combined] as a frame.  A merge that was skipped adds no column; a
    merge that found no partner for a row fills its columns with NaN. *)
Definition combined_frame (rows : list combined_row) (hr_merged k_merged : bool)
  : DataFrame :=
  {| nrows := length rows;
     series :=
       [("Name", map (fun row => cell_text (batting_Name row.1.1)) rows);
        ("Team", map (fun row => cell_text (Team row.1.1)) rows);
        ("Year", map (fun row => cell_int (Year row.1.1)) rows);
        ("Batting_Average", map (fun row => cell_float (Batting_Average row.1.1)) rows)]
       ++ (if hr_merged
           then [("Career_Home_Runs",
                  map (fun row => cell_int (row.1.2 ≫= Career_Home_Runs)) rows)]
           else [])
       ++ (if k_merged
           then [("League", map (fun row => cell_text (row.2 ≫= League)) rows);
                 ("Career_Strikeouts",
                  map (fun row => cell_int (row.2 ≫= Career_Strikeouts)) rows)]
           else []) |}.

(** What the player section puts on the page. *)
Inductive page : Type :=
| Message (text : string)                       (* st.info / st.write *)
| Dataframe (index : option (string * list value)) (body : DataFrame)
| Nothing
| KeyError.

(** [df.set_index(label)] *)
Definition set_index (df : DataFrame) (label : string) : page :=
  match getitem df label with
  | Some data =>
      Dataframe (Some (label, data))
        {| nrows := nrows df;
           series := filter (fun s => fst s ≠ label) (series df) |}
  | None => KeyError
  end.

(** The rows of [df_combined] for a player. *)
Definition combined_rows (df_batting : list BattingRecord)
    (df_home_runs : list HomeRunRecord)
    (df_career_strikeouts : list StrikeoutRecord)
    (selected_player : string) : list combined_row :=
  let df_combined := filter (fun r => eq_scalar (batting_Name r) selected_player)
                            df_batting in
  let df_combined :=
    if negb (no_rows df_home_runs)
    then merge_left batting_Name hr_Name df_combined df_home_runs
    else (fun b => (b, None)) <$> df_combined in
  if negb (no_rows df_career_strikeouts)
  then merge_left (fun row => batting_Name row.1) k_Name df_combined
                  df_career_strikeouts
  else (fun row => (row, None)) <$> df_combined.

Definition combined_player_view (df_batting : list BattingRecord)
    (df_home_runs : list HomeRunRecord)
    (df_career_strikeouts : list StrikeoutRecord)
    (selected_player : option string) : page :=
  if no_rows df_batting
  then Message "Load batting data to use the player detail view."
  else
    match selected_player with
    | None | Some "" => Nothing                  (* [if selected_player:] *)
    | Some player =>
        let df_combined :=
          combined_frame
            (combined_rows df_batting df_home_runs df_career_strikeouts player)
            (negb (no_rows df_home_runs)) (negb (no_rows df_career_strikeouts)) in
        if empty df_combined
        then Message "No combined stats found for this player."
        else
          let keep_cols :=
            filter (fun c => c ∈ columns df_combined)
                   ["Year"; "Batting_Average"; "Career_Home_Runs";
                    "Career_Strikeouts"] in
          match getitem_list df_combined keep_cols with
          | Some kept =>
              if decide ("Year" ∈ keep_cols) then set_index kept "Year"
              else Dataframe None kept
          | None => KeyError
          end
    end.

(** The left join the view is said to compute, written as one
    comprehension over the player's batting rows. *)
Definition or_nothing {A} (matches : list A) : list (option A) :=
  match matches with
  | [] => [None]
  | _ :: _ => Some <$> matches
  end.

Definition left_join (batting : list BattingRecord)
    (home_runs : list HomeRunRecord) (strikeouts : list StrikeoutRecord)
  : list combined_row :=
  b ← batting; h ← or_nothing home_runs; k ← or_nothing strikeouts; [(b, h, k)].

(** *** Example tables for the player view *)

Definition Ruth_2001 : BattingRecord :=
  mkBatting (Some "Ruth") (Some "NYY") (Some 2001) (Some 0.375%float).
Definition Ruth_2002 : BattingRecord :=
  mkBatting (Some "Ruth") (Some "NYY") (Some 2002) (Some 0.3125%float).
Definition Cobb_2001 : BattingRecord :=
  mkBatting (Some "Cobb") (Some "DET") (Some 2001) (Some 0.40625%float).
Definition Ruth_no_year : BattingRecord :=
  mkBatting (Some "Ruth") (Some "NYY") None (Some 0.28125%float).
Definition Ruth_no_team : BattingRecord :=
  mkBatting (Some "Ruth") None (Some 2002) (Some 0.3125%float).
Definition unnamed_2001 : BattingRecord :=
  mkBatting (Some "") (Some "NYY") (Some 2001) (Some 0.250%float).

(** ** Notions used in the further properties *)

(** What a table must satisfy to be in the store at all: pandas accepted
    its column names and SQLite its [CREATE TABLE]. *)
Definition sqlite_table (df : DataFrame) : Prop :=
  forallb valid_sqlite_name (columns df) ∧ create_table_ok df.

Definition schema_ok (conn : connection) : Prop :=
  ∀ t df, read_sql_query conn t = Some df → sqlite_table df.

(** What [import_one] does to a store that is a database: leave the
    target table, put a frame there, or drop it. *)
Inductive effect : Type :=
| Keep
| Put (df : DataFrame)
| Drop.

Definition apply_effect (e : effect) (table_name : string)
    (tables : gmap string DataFrame) : gmap string DataFrame :=
  match e with
  | Keep => tables
  | Put df => <[table_name := df]> tables
  | Drop => delete table_name tables
  end.

Definition import_plan `{Pandas} (fs : filesystem) (csv_name table_name : string)
  : outcome * effect * list message :=
  match csv_file fs csv_name with
  | None => (Returned, Keep, [Skipping table_name (csv_path csv_name)])
  | Some text =>
      match read_csv text with
      | None => (Raised, Keep, [])
      | Some df =>
          let df := prepare table_name df in
          if negb (forallb valid_sqlite_name (columns df)) then (Raised, Keep, [])
          else if create_table_ok df
          then (Returned, Put df, [Loaded csv_name table_name (nrows df)])
          else (Raised, Drop, [])
      end
  end.

(** A CSV whose two headers become one column name. *)
Definition colliding_headers : filesystem :=
  {| CSV_DIR_exists := true;
     CSV_DIR_files :=
       {[ "home_runs.csv" := line "Career Home Runs,Career_Home_Runs" +:+ line "1,2" ]} |}.

(** A [data/] directory whose [home_runs.csv] has no text at all. *)
Definition empty_home_runs_file : filesystem :=
  {| CSV_DIR_exists := true;
     CSV_DIR_files :=
       {[ "batting_avg.csv" := line "Name,Team,Year,Batting Average"
                                 +:+ line "Ruth,NYY,1927,356";
          "home_runs.csv" := "";
          "career_strikeouts.csv" := line "Name,League,Career Strikeouts"
                                       +:+ line "Ryan,AL,5714" ]} |}.

(** Whether a text, read forwards or backwards, begins with a white-space
    code point. *)
Definition head_space (backwards : bool) (s : string) : bool :=
  match s with
  | String a rest =>
      is_space1 a
      || match rest with
         | String b rest2 =>
             (if backwards then is_space2 b a else is_space2 a b)
             || match rest2 with
                | String c _ => if backwards then is_space3 c b a else is_space3 a b c
                | EmptyString => false
                end
         | EmptyString => false
         end
  | EmptyString => false
  end.

(** What [replace(" ", "_")] does to one byte. *)
Definition space_to_underscore (a : ascii) : ascii :=
  if byte_is a 32 then "_"%char else a.

(** *** The home-run slider ([app.py], lines 57-61) *)




(** Strictly ascending text. *)
Definition text_lt (a b : string) : Prop := String.le a b ∧ a ≠ b.

(** * Properties *)

(** ** Frames and the tolerant reader *)

Section frame_facts.
Implicit Types (df : DataFrame) (c : string) (cols keys : list string).

Lemma columns_DataFrame_columns cols :
  columns (DataFrame_columns cols) = cols.
Proof.
  unfold columns, DataFrame_columns; simpl.
  induction cols as [|c cols IH]; simpl; [done|by rewrite IH].
Qed.

Lemma getitem_DataFrame_columns cols c :
  c ∈ cols → getitem (DataFrame_columns cols) c = Some [].
Proof.
  unfold getitem, DataFrame_columns; simpl.
  induction 1 as [c cols|c c' cols _ IH]; simpl.
  - by rewrite decide_True.
  - destruct (decide (c' = c)) as [->|Hne]; simpl; [done|].
    destruct (list_find _ _) as [[i s]|] eqn:E; simpl in *; congruence.
Qed.

Lemma getitem_Some_elem_of df c d :
  getitem df c = Some d → c ∈ columns df.
Proof.
  unfold getitem, columns.
  destruct (list_find _ _) as [[i s]|] eqn:E; simpl; [|done].
  intros _. apply list_find_Some in E as (Hi & <- & _).
  apply list_elem_of_fmap. exists s. split; [done|].
  by eapply list_elem_of_lookup_2.
Qed.

Lemma getitem_is_Some df c :
  c ∈ columns df → is_Some (getitem df c).
Proof.
  unfold getitem, columns. intros Hc.
  apply list_elem_of_fmap in Hc as (s & -> & Hs).
  destruct (list_find_elem_of (fun s' => s'.1 = s.1) (series df) s Hs eq_refl)
    as [[i s'] ->].
  by eexists.
Qed.

Lemma filter_label_absent (l : list (string * list value)) c :
  c ∉ map fst l → filter (fun s => s.1 = c) l = [].
Proof.
  induction l as [|[c' d'] l IH]; simpl; intros Hc; [done|].
  apply not_elem_of_cons in Hc as [Hne Hc].
  rewrite filter_cons_False by (simpl; congruence). by apply IH.
Qed.

(** With distinct labels, selecting the columns labelled [c] finds the
    one column [df[c]]. *)
Lemma filter_label_NoDup (l : list (string * list value)) c d :
  NoDup (map fst l) → (c, d) ∈ l →
  filter (fun s => s.1 = c) l = [(c, d)].
Proof.
  induction l as [|[c' d'] l IH]; intros Hnd Hin.
  - by apply elem_of_nil in Hin.
  - simpl in Hnd. apply NoDup_cons in Hnd as [Hc' Hnd].
    apply elem_of_cons in Hin as [[= <- <-]|Hin].
    + rewrite filter_cons_True by done. f_equal. by apply filter_label_absent.
    + rewrite filter_cons_False; [by apply IH|].
      simpl. intros ->. apply Hc', list_elem_of_fmap. by exists (c, d).
Qed.

Lemma getitem_elem_of df c d :
  getitem df c = Some d → (c, d) ∈ series df.
Proof.
  unfold getitem.
  destruct (list_find _ _) as [[i [c' d']]|] eqn:E; simpl; [|done].
  intros [= <-]. apply list_find_Some in E as (Hi & Hc & _). simpl in Hc; subst.
  by eapply list_elem_of_lookup_2.
Qed.

Lemma getitem_list_series df keys :
  NoDup (columns df) → Forall (fun c => c ∈ columns df) keys →
  getitem_list df keys =
    Some {| nrows := nrows df;
            series := map (fun c => (c, default [] (getitem df c))) keys |}.
Proof.
  intros Hnd Hall. unfold getitem_list. rewrite decide_True by done.
  do 2 f_equal. induction Hall as [|c keys Hc _ IH]; simpl; [done|].
  rewrite IH. destruct (getitem_is_Some df c Hc) as [d Hd]. rewrite Hd. simpl.
  by rewrite (filter_label_NoDup _ c d Hnd (getitem_elem_of _ _ _ Hd)).
Qed.

Lemma getitem_tabulated n (f : string → list value) keys c :
  c ∈ keys →
  getitem {| nrows := n; series := map (fun c => (c, f c)) keys |} c = Some (f c).
Proof.
  unfold getitem; simpl.
  induction 1 as [c keys|c c' keys _ IH]; simpl.
  - by rewrite decide_True.
  - destruct (decide (c' = c)) as [->|Hne]; simpl; [done|].
    destruct (list_find _ _) as [[i s]|] eqn:E; simpl in *; congruence.
Qed.

Lemma present_columns_Forall df cols :
  Forall (fun c => c ∈ columns df) (present_columns df cols).
Proof.
  apply Forall_forall. intros c Hc.
  by apply list_elem_of_filter in Hc as [? _].
Qed.

Lemma getitem_list_columns_subseteq df keys proj :
  getitem_list df keys = Some proj → ∀ c, c ∈ columns proj ↔ c ∈ keys.
Proof.
  unfold getitem_list. case_decide as Hall; [|done]. intros [= <-] c.
  unfold columns; simpl. rewrite list_elem_of_fmap. split.
  - intros ([c' d] & -> & Hin). simpl.
    apply list_elem_of_In, in_flat_map in Hin as (k & Hk & Hin).
    apply list_elem_of_In, list_elem_of_filter in Hin as [Heq _].
    simpl in Heq. subst. by apply list_elem_of_In.
  - intros Hc. rewrite Forall_forall in Hall.
    destruct (getitem_is_Some df c (Hall c Hc)) as [d Hd].
    exists (c, d). split; [done|].
    apply list_elem_of_In, in_flat_map. exists c. split; [by apply list_elem_of_In|].
    apply list_elem_of_In, list_elem_of_filter. split; [done|].
    by apply getitem_elem_of.
Qed.
End frame_facts.

Lemma DataFrame_columns_empty_with_schema cols :
  empty_with_schema (DataFrame_columns cols) cols.
Proof.
  split; [done|]. split; [apply columns_DataFrame_columns|].
  apply getitem_DataFrame_columns.
Qed.

(** C1. [read_table] returns: when the read raises (no such table, or any
    other failure), a zero-row frame whose columns are exactly the expected
    list, in order; when the table is read, the projection onto the
    expected columns that the table has, in the expected list's order, with
    the table's rows; and when the table has none of the expected columns,
    the same zero-row frame with the full expected schema.  (SQLite keeps
    the column names of a table distinct.) *)
Theorem read_table_spec (conn : connection) (table : string) (cols : list string) :
  (∀ df, read_sql_query conn table = Some df → NoDup (columns df)) →
  let result := read_table conn table cols in
  match read_sql_query conn table with
  | None => empty_with_schema result cols
  | Some df =>
      let present := filter (fun c => c ∈ columns df) cols in
      match present with
      | [] => empty_with_schema result cols
      | _ :: _ =>
          columns result = present ∧
          nrows result = nrows df ∧
          ∀ c, c ∈ present → getitem result c = getitem df c
      end
  end.
Proof.
  intros Hdistinct. unfold read_table.
  destruct (read_sql_query conn table) as [df|] eqn:Hread;
    [|apply DataFrame_columns_empty_with_schema].
  specialize (Hdistinct df eq_refl). fold (present_columns df cols).
  pose proof (present_columns_Forall df cols) as Hall.
  destruct (present_columns df cols) as [|c0 present] eqn:Hpresent;
    [apply DataFrame_columns_empty_with_schema|].
  rewrite (getitem_list_series df _ Hdistinct Hall). cbv zeta.
  split; [|split; [done|]].
  - unfold columns at 1. cbn [series]. rewrite map_map. apply map_id.
  - intros c Hc.
    rewrite (getitem_tabulated (nrows df)
               (fun c => default [] (getitem df c)) (c0 :: present) c Hc).
    rewrite Forall_forall in Hall.
    by destruct (getitem_is_Some df c (Hall c Hc)) as [d ->].
Qed.

Lemma read_table_spec_witness :
  let conn := Database {["batting_avg" := batting_with_extra]} in
  let result := read_table conn "batting_avg" EXPECTED_batting_avg in
  columns result = ["Name"; "Team"] ∧
  nrows result = 2%nat ∧
  ∀ c, c ∈ ["Name"; "Team"] → getitem result c = getitem batting_with_extra c.
Proof.
  intros conn result.
  assert (∀ df, read_sql_query conn "batting_avg" = Some df → NoDup (columns df))
    as Hdistinct.
  { intros df Hdf. vm_compute in Hdf. injection Hdf as <-.
    apply (bool_decide_unpack _). vm_compute. exact I. }
  pose proof (read_table_spec conn "batting_avg" EXPECTED_batting_avg Hdistinct)
    as Hspec.
  change (read_sql_query conn "batting_avg") with (Some batting_with_extra) in Hspec.
  cbv beta iota zeta in Hspec.
  change (filter _ EXPECTED_batting_avg) with ["Name"; "Team"] in Hspec.
  exact Hspec.
Defined.

(** C2 does not hold as stated: read from a table that has only some of
    the expected columns, the result lacks the others, and indexing one of
    them is a [KeyError]. *)
Lemma read_table_expected_column_missing :
  let result :=
    read_table (Database {["batting_avg" := batting_without_year]})
      "batting_avg" EXPECTED_batting_avg in
  ("Year" ∈ EXPECTED_batting_avg) ∧
  ("Year" ∉ columns result) ∧
  nrows result = 1%nat ∧
  getitem result "Year" = None.
Proof.
  vm_compute. split; [set_solver|]. split; [|done].
  intros H. repeat (apply elem_of_cons in H as [H|H]; [discriminate H|]).
  by apply elem_of_nil in H.
Qed.

(** C2, amended.  A column is in the result of [read_table] exactly when
    it is expected and either the read fell back to the empty frame (the
    read raised, or the table has no expected column) or the stored table
    has that column.  So the result never has an unexpected column, and it
    has every expected column in the fall-back cases and when the table
    has them all. *)
Theorem read_table_columns (conn : connection) (table : string)
    (cols : list string) (c : string) :
  c ∈ columns (read_table conn table cols) ↔
  c ∈ cols ∧
  match read_sql_query conn table with
  | None => True
  | Some df => c ∈ columns df ∨ present_columns df cols = []
  end.
Proof.
  unfold read_table.
  destruct (read_sql_query conn table) as [df|];
    [|rewrite columns_DataFrame_columns; tauto].
  pose proof (present_columns_Forall df cols) as Hall.
  destruct (present_columns df cols) as [|c0 present] eqn:Hpresent.
  { rewrite columns_DataFrame_columns. tauto. }
  destruct (getitem_list df (c0 :: present)) as [proj|] eqn:Hproj.
  - rewrite (getitem_list_columns_subseteq _ _ _ Hproj c), <- Hpresent.
    unfold present_columns. rewrite list_elem_of_filter.
    split; [intros [? ?]; auto|intros [? [?|Hnil]]; [auto|]].
    unfold present_columns in Hpresent. congruence.
  - unfold getitem_list in Hproj. by rewrite decide_True in Hproj.
Qed.

(** ** The importer *)

Example normalize_column_example :
  normalize_column (String (ascii_of_N 9) "  Batting Average " +:+ String (ascii_of_N 10) "")
  = "Batting_Average".
Proof. reflexivity. Qed.

(** A no-break space (U+00A0, bytes C2 A0) is stripped as well; a space
    inside the header becomes an underscore. *)
Example normalize_column_nbsp :
  normalize_column (String (ascii_of_N 194) (String (ascii_of_N 160) "Career Home Runs"))
  = "Career_Home_Runs".
Proof. reflexivity. Qed.

Section importer_facts.
Context `{Pandas}.
Implicit Types (df : DataFrame) (conn : connection) (fs : filesystem).

Lemma columns_cast_column df col typ :
  columns (cast_column df col typ) = columns df.
Proof.
  unfold cast_column. case_decide; [|done].
  unfold columns; simpl. rewrite map_map. apply map_ext.
  intros s. by case_decide.
Qed.

Lemma dict_get_cons {V} (k k' : string) (v : V) (d : list (string * V)) :
  dict_get ((k', v) :: d) k = if decide (k' = k) then Some v else dict_get d k.
Proof.
  unfold dict_get; simpl. case_decide; [done|].
  by destruct (list_find _ d) as [[i kv]|].
Qed.

Lemma dict_get_None {V} (k : string) (d : list (string * V)) :
  k ∉ map fst d → dict_get d k = None.
Proof.
  induction d as [|[k' v] d IH]; simpl; intros Hk; [done|].
  apply not_elem_of_cons in Hk as [Hne Hk].
  rewrite dict_get_cons, decide_False by done. by apply IH.
Qed.

(** The loop over the declared dtypes casts each column once, by its
    label: it is a map over the columns. *)
Lemma cast_loop_series (dtypes : list (string * dtype)) df :
  NoDup (map fst dtypes) →
  foldl (fun df ct => cast_column df (fst ct) (snd ct)) df dtypes =
  {| nrows := nrows df; series := map (declared_cast dtypes) (series df) |}.
Proof.
  revert df. induction dtypes as [|[col typ] dtypes IH]; intros df Hnd.
  - simpl. destruct df as [n ss]. simpl. f_equal.
    symmetry. rewrite <- (map_id ss) at 2. by apply map_ext.
  - simpl in Hnd. apply NoDup_cons in Hnd as [Hcol Hnd].
    simpl. rewrite IH by done. unfold cast_column.
    case_decide as Hin; simpl.
    + f_equal. rewrite map_map. apply map_ext. intros [c d].
      unfold declared_cast. simpl. rewrite dict_get_cons.
      case_decide as Hc; simpl.
      * subst c. rewrite decide_True by done.
        by rewrite (dict_get_None col dtypes Hcol).
      * rewrite decide_False by congruence. done.
    + f_equal. apply map_ext_in. intros [c d] Hcd.
      unfold declared_cast. simpl. rewrite dict_get_cons.
      rewrite decide_False; [done|]. intros ->. apply Hin.
      unfold columns. apply list_elem_of_fmap. exists (c, d).
      split; [done|by apply list_elem_of_In].
Qed.

Lemma CSV_DTYPES_distinct table dtypes :
  dict_get CSV_DTYPES table = Some dtypes → NoDup (map fst dtypes).
Proof.
  unfold CSV_DTYPES. rewrite !dict_get_cons.
  repeat case_decide; intros [= <-] || (intros Hnone; try discriminate Hnone);
    apply (bool_decide_unpack _); vm_compute; exact I.
Qed.
End importer_facts.

Section importer_properties.
Context `{Pandas}.
Implicit Types (df : DataFrame) (conn : connection) (fs : filesystem).

Lemma rename_columns_series f df :
  series (rename_columns f df) = map (fun s => (f (fst s), snd s)) (series df).
Proof. done. Qed.

(** The frame written to the store is the normalized contents of the
    parsed CSV. *)
Lemma prepare_normalized_contents table_name df :
  prepare table_name df = normalized_contents table_name df.
Proof.
  unfold prepare, normalized_contents.
  destruct (dict_get CSV_DTYPES table_name) as [dtypes|] eqn:Hd; simpl.
  - rewrite cast_loop_series by (by eapply CSV_DTYPES_distinct).
    simpl. by rewrite map_map.
  - reflexivity.
Qed.

Lemma to_sql_other df table_name conn t :
  t ≠ table_name →
  read_sql_query (to_sql df table_name conn).2 t = read_sql_query conn t.
Proof.
  intros Hne. destruct conn as [|tables]; simpl; [done|].
  destruct (negb _); simpl; [done|].
  destruct (create_table_ok df); simpl.
  - by rewrite lookup_insert_ne.
  - by rewrite lookup_delete_ne.
Qed.

Lemma to_sql_Returned df table_name conn conn' :
  to_sql df table_name conn = (Returned, conn') →
  read_sql_query conn' table_name = Some df.
Proof.
  destruct conn as [|tables]; simpl; [done|].
  destruct (negb _); [done|].
  destruct (create_table_ok df); [|done].
  intros [= <-]. simpl. by rewrite lookup_insert_eq.
Qed.

Lemma to_sql_twice df table_name conn :
  to_sql df table_name (to_sql df table_name conn).2 = to_sql df table_name conn.
Proof.
  destruct conn as [|tables]; simpl; [done|].
  destruct (negb _) eqn:Hnames; simpl; [by rewrite Hnames|].
  destruct (create_table_ok df) eqn:Hcreate; simpl; rewrite Hnames, Hcreate.
  - by rewrite insert_insert_eq.
  - by rewrite delete_delete_eq.
Qed.

Lemma import_one_skip fs csv_name table_name conn :
  csv_file fs csv_name = None →
  import_one fs csv_name table_name conn
  = (Returned, conn, [Skipping table_name (csv_path csv_name)]).
Proof. unfold import_one. by intros ->. Qed.

Lemma import_one_load fs csv_name table_name conn text df :
  csv_file fs csv_name = Some text → read_csv text = Some df →
  import_one fs csv_name table_name conn
  = match to_sql (prepare table_name df) table_name conn with
    | (Returned, conn') =>
        (Returned, conn', [Loaded csv_name table_name (nrows (prepare table_name df))])
    | (Raised, conn') => (Raised, conn', [])
    end.
Proof. unfold import_one. by intros -> ->. Qed.

Lemma import_one_other fs csv_name table_name conn t :
  t ≠ table_name →
  read_sql_query (import_one fs csv_name table_name conn).1.2 t
  = read_sql_query conn t.
Proof.
  intros Hne. unfold import_one.
  destruct (csv_file fs csv_name) as [text|]; [|done].
  destruct (read_csv text) as [df|]; [|done]. simpl.
  pose proof (to_sql_other (prepare table_name df) table_name conn t Hne) as Hsql.
  by destruct (to_sql _ _ _) as [[|] conn'].
Qed.

(** C7. Importing the same CSV twice in a row does what importing it once
    does: the second run returns the same way, prints the same, and leaves
    the store, and so the target table, as the first run left it. *)
Theorem import_one_idempotent fs (csv_name table_name : string) conn :
  let once := import_one fs csv_name table_name conn in
  let twice := import_one fs csv_name table_name once.1.2 in
  twice = once ∧
  read_sql_query twice.1.2 table_name = read_sql_query once.1.2 table_name.
Proof.
  cbv zeta.
  assert (import_one fs csv_name table_name
            (import_one fs csv_name table_name conn).1.2
          = import_one fs csv_name table_name conn) as Heq.
  { unfold import_one.
    destruct (csv_file fs csv_name) as [text|]; [|done].
    destruct (read_csv text) as [df|]; [|done]. simpl.
    pose proof (to_sql_twice (prepare table_name df) table_name conn) as Htwice.
    destruct (to_sql (prepare table_name df) table_name conn) as [[|] conn1];
      simpl in *; by rewrite Htwice. }
  by rewrite Heq.
Qed.

(** C9. [import_one] touches no table but its target, however it ends;
    and when it reads the CSV and returns, the target table holds the
    normalized contents of that CSV, whatever it held before. *)
Theorem import_one_replaces fs (csv_name table_name : string) conn :
  (∀ t, t ≠ table_name →
        read_sql_query (import_one fs csv_name table_name conn).1.2 t
        = read_sql_query conn t) ∧
  (∀ text df conn' out,
     csv_file fs csv_name = Some text →
     read_csv text = Some df →
     import_one fs csv_name table_name conn = (Returned, conn', out) →
     read_sql_query conn' table_name = Some (normalized_contents table_name df)).
Proof.
  split; [intros t Hne; by apply import_one_other|].
  intros text df conn' out Hfile Hread Himport.
  rewrite (import_one_load _ _ _ _ _ _ Hfile Hread) in Himport.
  destruct (to_sql _ _ _) as [[|] conn1] eqn:Hsql; [|done].
  injection Himport as <- _.
  rewrite <- prepare_normalized_contents. by eapply to_sql_Returned.
Qed.

Lemma importable_load fs csv_name table_name text tables :
  csv_file fs csv_name = Some text →
  importable table_name text →
  ∃ df, read_csv text = Some df ∧
    import_one fs csv_name table_name (Database tables)
    = (Returned, Database (<[table_name := normalized_contents table_name df]> tables),
       [Loaded csv_name table_name (nrows df)]).
Proof.
  intros Hfile Hok. unfold importable in Hok.
  destruct (read_csv text) as [df|] eqn:Hread; [|done].
  apply andb_prop_elim in Hok as [Hnames Hcreate].
  exists df. split; [done|].
  rewrite (import_one_load _ _ _ _ _ _ Hfile Hread). simpl.
  apply Is_true_true in Hnames, Hcreate. rewrite Hnames, Hcreate. simpl.
  by rewrite prepare_normalized_contents.
Qed.

(** What the loop of [main] leaves behind when every file that is there
    can be imported: a missing file costs its own table only. *)
Lemma import_each_spec fs (pairs : list (string * string)) tables :
  NoDup (map snd pairs) →
  (∀ csv_name table_name text,
     (csv_name, table_name) ∈ pairs → csv_file fs csv_name = Some text →
     importable table_name text) →
  ∃ tables' out,
    import_each fs pairs (Database tables) = (Returned, Database tables', out) ∧
    (∀ t, t ∉ map snd pairs → tables' !! t = tables !! t) ∧
    ∀ csv_name table_name, (csv_name, table_name) ∈ pairs →
      match csv_file fs csv_name with
      | None =>
          tables' !! table_name = tables !! table_name ∧
          Skipping table_name (csv_path csv_name) ∈ out
      | Some text =>
          ∃ df, read_csv text = Some df ∧
            tables' !! table_name = Some (normalized_contents table_name df) ∧
            Loaded csv_name table_name (nrows df) ∈ out
      end.
Proof.
  revert tables. induction pairs as [|[csv t] rest IH]; intros tables Hnd Hok.
  { exists tables, []. split; [done|]. split; [done|].
    intros ?? Hin. by apply elem_of_nil in Hin. }
  simpl in Hnd. apply NoDup_cons in Hnd as [Ht Hnd].
  assert (∀ csv_name table_name text,
            (csv_name, table_name) ∈ rest → csv_file fs csv_name = Some text →
            importable table_name text) as Hok_rest.
  { intros ??? Hin. apply Hok. by right. }
  assert (∀ csv_name table_name, (csv_name, table_name) ∈ rest → table_name ≠ t)
    as Hfresh.
  { intros ?? Hin ->. apply Ht, list_elem_of_fmap. by eexists (_, _). }
  simpl. destruct (csv_file fs csv) as [text|] eqn:Hfile.
  - destruct (importable_load fs csv t text tables Hfile)
      as (df & Hread & ->); [by eapply Hok; [left|]|].
    destruct (IH (<[t := normalized_contents t df]> tables) Hnd Hok_rest)
      as (tables' & out & -> & Hframe & Hrest).
    exists tables', ([Loaded csv t (nrows df)] ++ out).
    split; [done|]. split.
    + intros t' Ht'. simpl in Ht'. apply not_elem_of_cons in Ht' as [Hne Ht'].
      by rewrite Hframe, lookup_insert_ne.
    + intros csv' t' [[= -> ->]|Hin]%elem_of_cons.
      * rewrite Hfile. exists df. split; [done|].
        rewrite Hframe, lookup_insert_eq by done. split; [done|]. by left.
      * specialize (Hrest csv' t' Hin).
        destruct (csv_file fs csv') as [text'|].
        -- destruct Hrest as (df' & ? & ? & ?). exists df'.
           split; [done|]. split; [done|]. by right.
        -- destruct Hrest as [-> ?]. split; [|by right].
           apply lookup_insert_ne. symmetry. by eapply Hfresh.
  - rewrite (import_one_skip _ _ _ _ Hfile).
    destruct (IH tables Hnd Hok_rest) as (tables' & out & -> & Hframe & Hrest).
    exists tables', ([Skipping t (csv_path csv)] ++ out).
    split; [done|]. split.
    + intros t' Ht'. simpl in Ht'. apply not_elem_of_cons in Ht' as [Hne Ht'].
      by apply Hframe.
    + intros csv' t' [[= -> ->]|Hin]%elem_of_cons.
      * rewrite Hfile. split; [by apply Hframe|by left].
      * specialize (Hrest csv' t' Hin).
        destruct (csv_file fs csv') as [text'|].
        -- destruct Hrest as (df' & ? & ? & ?). exists df'.
           split; [done|]. split; [done|]. by right.
        -- destruct Hrest as [-> ?]. split; [done|by right].
Qed.

(** C8. Without the CSV directory [main] prints its diagnostic and
    returns with the store as it was.  With the directory, a missing CSV
    makes [import_one] print a message and return, and the loop goes on
    with the remaining pairs; so when the files that are there can be
    imported, each of them replaces its table while the table of each
    missing file stays as it was. *)
Theorem main_missing_sources fs (db : connection) :
  (CSV_DIR_exists fs = false →
   main fs db = (Returned, db, [CSV_directory_not_found])) ∧
  (∀ csv_name table_name rest conn,
     csv_file fs csv_name = None →
     import_one fs csv_name table_name conn
     = (Returned, conn, [Skipping table_name (csv_path csv_name)]) ∧
     import_each fs ((csv_name, table_name) :: rest) conn
     = (let '(o, conn', out) := import_each fs rest conn in
        (o, conn', Skipping table_name (csv_path csv_name) :: out))) ∧
  (CSV_DIR_exists fs = true →
   ∀ tables, db = Database tables →
   (∀ csv_name table_name text,
      (csv_name, table_name) ∈ REQUIRED → csv_file fs csv_name = Some text →
      importable table_name text) →
   ∃ tables' out,
     main fs db = (Returned, Database tables', out ++ [Tables_in_DB (dom tables')]) ∧
     ∀ csv_name table_name, (csv_name, table_name) ∈ REQUIRED →
       match csv_file fs csv_name with
       | None =>
           tables' !! table_name = tables !! table_name ∧
           Skipping table_name (csv_path csv_name) ∈ out
       | Some text =>
           ∃ df, read_csv text = Some df ∧
             tables' !! table_name = Some (normalized_contents table_name df) ∧
             Loaded csv_name table_name (nrows df) ∈ out
       end).
Proof.
  split; [|split].
  - intros Hdir. unfold main. by rewrite Hdir.
  - intros csv_name table_name rest conn Hfile. split.
    + by apply import_one_skip.
    + simpl. rewrite (import_one_skip _ _ _ _ Hfile).
      by destruct (import_each fs rest conn) as [[o conn'] out].
  - intros Hdir tables -> Hok.
    destruct (import_each_spec fs REQUIRED tables) as (tables' & out & Heach & _ & Hspec);
      [apply (bool_decide_unpack _); vm_compute; exact I|done|].
    exists tables', out. split; [|done].
    unfold main. by rewrite Hdir, Heach.
Qed.
End importer_properties.

Lemma import_one_replaces_witness :
  let conn' :=
    (@import_one plain_pandas two_files "home_runs.csv" "home_runs"
       (Database old_store)).1.2 in
  read_sql_query conn' "home_runs"
  = Some {| nrows := 2;
            series := [("Name", [VStr "Ruth"; VStr "Aaron"]);
                       ("Career_Home_Runs", [VInt 714; VInt 755])] |} ∧
  ∀ t, t ≠ "home_runs" →
       read_sql_query conn' t = read_sql_query (Database old_store) t.
Proof.
  intros conn'.
  destruct (@import_one_replaces plain_pandas two_files
              "home_runs.csv" "home_runs" (Database old_store))
    as [Hothers Htarget].
  split; [|exact Hothers].
  exact (Htarget
           (line "Name, Career Home Runs" +:+ line "Ruth,714" +:+ line "Aaron,755")
           {| nrows := 2;
              series := [("Name", [VStr "Ruth"; VStr "Aaron"]);
                         (" Career Home Runs", [VInt 714; VInt 755])] |}
           conn'
           (@import_one plain_pandas two_files "home_runs.csv" "home_runs"
              (Database old_store)).2
           ltac:(vm_compute; reflexivity)
           ltac:(vm_compute; reflexivity)
           ltac:(vm_compute; reflexivity)).
Defined.

Lemma main_missing_sources_witness :
  ∃ tables' out,
    @main plain_pandas two_files (Database old_store)
    = (Returned, Database tables', out ++ [Tables_in_DB (dom tables')]) ∧
    tables' !! "batting_avg" = Some batting_with_extra ∧
    Skipping "batting_avg" "data/batting_avg.csv" ∈ out ∧
    is_Some (tables' !! "career_strikeouts").
Proof.
  destruct (@main_missing_sources plain_pandas two_files (Database old_store))
    as (_ & _ & Hmain).
  destruct (Hmain eq_refl old_store eq_refl) as (tables' & out & Hrun & Hspec).
  { intros csv_name table_name text Hin Hfile.
    repeat (apply elem_of_cons in Hin as [[= -> ->]|Hin]);
      [vm_compute in Hfile; discriminate Hfile
      |vm_compute in Hfile; injection Hfile as <-; vm_compute; exact I..|].
    by apply elem_of_nil in Hin. }
  exists tables', out. split; [done|].
  pose proof (Hspec "batting_avg.csv" "batting_avg" ltac:(by left)) as [Hb ?].
  pose proof (Hspec "career_strikeouts.csv" "career_strikeouts"
                ltac:(by right; right; left)) as (df & _ & Hk & _).
  rewrite Hb, Hk. split; [reflexivity|]. split; [done|by eexists].
Defined.

(** ** Sorting *)

Lemma omap_ext_elem_of {A B} (f g : A → option B) (l : list A) :
  (∀ x, x ∈ l → f x = g x) → omap f l = omap g l.
Proof.
  intros Hfg. apply list_omap_ext, Forall2_same_length_lookup.
  split; [done|]. intros i x y Hx Hy. simplify_eq.
  apply Hfg. by eapply list_elem_of_lookup_2.
Qed.

Lemma omap_reverse {A B} (f : A → option B) (l : list A) :
  omap f (reverse l) = reverse (omap f l).
Proof.
  induction l as [|x l IH]; [done|].
  rewrite reverse_cons, omap_app, IH. csimpl.
  destruct (f x); csimpl; [by rewrite reverse_cons|by rewrite app_nil_r].
Qed.

(** Reading a list at all its positions, in order, gives the list. *)
Lemma omap_lookup_seq {A} (l : list A) :
  omap (fun i => l !! i) (seq 0 (length l)) = l.
Proof.
  induction l as [|x l IH] using rev_ind; [done|].
  rewrite length_app, seq_app, omap_app. simpl.
  rewrite (omap_ext_elem_of _ (fun i => l !! i)).
  - rewrite IH. csimpl. by rewrite list_lookup_middle.
  - intros i Hi%elem_of_seq. apply lookup_app_l. lia.
Qed.

Lemma frame_take_Permutation {A} (rows : list A) (indexer : list nat) :
  indexer ≡ₚ seq 0 (length rows) → frame_take rows indexer ≡ₚ rows.
Proof.
  intros Hperm. unfold frame_take. rewrite Hperm. by rewrite omap_lookup_seq.
Qed.

Lemma omap_total_lookup {A B} (f : A → option B) (l : list A) (j : nat) :
  Forall (fun x => is_Some (f x)) l → omap f l !! j = l !! j ≫= f.
Proof.
  intros Hall. revert j. induction Hall as [|x l [y Hy] _ IH]; intros j; [done|].
  csimpl. rewrite Hy. destruct j as [|j]; simpl; [done|apply IH].
Qed.

Lemma omap_total_length {A B} (f : A → option B) (l : list A) :
  Forall (fun x => is_Some (f x)) l → length (omap f l) = length l.
Proof.
  induction 1 as [|x l [y Hy] _ IH]; [done|]. csimpl. rewrite Hy. simpl. by rewrite IH.
Qed.

Section nargsort.
Context `{Argsort}.
Implicit Types (items : list (option Z)) (ascending : bool).

Lemma non_nan_positions_Forall items ascending :
  Forall (fun i => is_Some (item items i)) (non_nan_positions items ascending).
Proof.
  unfold non_nan_positions. apply Forall_forall. intros i Hi.
  destruct ascending; [|rewrite elem_of_reverse in Hi];
    by apply list_elem_of_filter in Hi as [? _].
Qed.

(** The sorted part of the indexer reads the non-NaN items in the order
    [argsort] gives them. *)
Lemma sorted_part_items items (positions : list nat) (js : list nat) :
  Forall (fun i => is_Some (item items i)) positions →
  omap (fun i => items !! i) (omap (fun j => positions !! j) js)
  = Some <$> omap (fun j => omap (item items) positions !! j) js.
Proof.
  intros Hall. induction js as [|j js IH]; [done|]. csimpl.
  rewrite (omap_total_lookup _ _ j Hall).
  destruct (positions !! j) as [i|] eqn:Hj; csimpl; [|done].
  rewrite Forall_forall in Hall.
  destruct (Hall i) as [v Hv]; [by eapply list_elem_of_lookup_2|].
  rewrite Hv. unfold item in Hv.
  destruct (items !! i) as [[v'|]|] eqn:Hi; simplify_eq/=. by rewrite IH.
Qed.

Lemma nan_part_items items :
  omap (fun i => items !! i)
       (filter (fun i => ¬ is_Some (item items i)) (seq 0 (length items)))
  = replicate (length (filter (fun i => ¬ is_Some (item items i))
                              (seq 0 (length items)))) None.
Proof.
  set (nan_idx := filter _ _).
  assert (Forall (fun i => items !! i = Some None) nan_idx) as Hall.
  { apply Forall_forall. intros i [Hnan Hi%elem_of_seq]%list_elem_of_filter.
    destruct (lookup_lt_is_Some_2 items i) as [[v|] Hv]; [lia| |done].
    destruct Hnan. unfold item. rewrite Hv. by eexists. }
  induction Hall as [|i l Hi _ IH]; [done|]. csimpl. by rewrite Hi, IH.
Qed.

Lemma nargsort_Permutation items ascending :
  nargsort items ascending ≡ₚ seq 0 (length items).
Proof.
  unfold nargsort. fold (non_nan_positions items ascending).
  pose proof (non_nan_positions_Forall items ascending) as Hall.
  set (positions := non_nan_positions items ascending) in *.
  assert (omap (fun j => positions !! j) (argsort (omap (item items) positions))
          ≡ₚ positions) as Hsorted.
  { rewrite argsort_Permutation, (omap_total_length _ _ Hall).
    by rewrite omap_lookup_seq. }
  rewrite <- (filter_app_complement (fun i => is_Some (item items i))
                (seq 0 (length items))) at 2.
  apply Permutation_app; [|done].
  transitivity positions.
  - destruct ascending; [done|]. by rewrite reverse_Permutation.
  - unfold positions, non_nan_positions.
    destruct ascending; [done|]. by rewrite reverse_Permutation.
Qed.

(** The items read through the indexer: the non-NaN values in order,
    then the NaNs. *)
Lemma nargsort_items items ascending :
  ∃ vals n,
    omap (fun i => items !! i) (nargsort items ascending)
    = (Some <$> vals) ++ replicate n None ∧
    Sorted (if ascending then Z.le else flip Z.le) vals.
Proof.
  unfold nargsort. fold (non_nan_positions items ascending).
  pose proof (non_nan_positions_Forall items ascending) as Hall.
  set (positions := non_nan_positions items ascending) in *.
  set (non_nans := omap (item items) positions).
  pose proof (argsort_Sorted non_nans) as Hsorted.
  pose proof (sorted_part_items items positions (argsort non_nans) Hall) as Hread.
  fold non_nans in Hread.
  set (sorted := omap (fun j => non_nans !! j) (argsort non_nans)) in *.
  exists (if ascending then sorted else reverse sorted), (length
    (filter (fun i => ¬ is_Some (item items i)) (seq 0 (length items)))).
  rewrite omap_app, nan_part_items. split.
  - f_equal. destruct ascending; [exact Hread|].
    by rewrite omap_reverse, Hread, <- fmap_reverse.
  - destruct ascending; [done|]. by apply Sorted_reverse.
Qed.

Context {A : Type}.
Implicit Types (key : A → option Z) (rows : list A).

Lemma sort_values_Permutation key ascending rows :
  sort_values key ascending rows ≡ₚ rows.
Proof.
  apply frame_take_Permutation.
  rewrite nargsort_Permutation. by rewrite length_map.
Qed.

(** The key column of the sorted rows: the non-NaN keys in the requested
    order, followed by the NaN keys. *)
Lemma sort_values_keys key ascending rows :
  ∃ vals n,
    map key (sort_values key ascending rows) = (Some <$> vals) ++ replicate n None ∧
    Sorted (if ascending then Z.le else flip Z.le) vals.
Proof.
  destruct (nargsort_items (map key rows) ascending) as (vals & n & Hitems & Hsorted).
  exists vals, n. split; [|done]. rewrite <- Hitems.
  unfold sort_values, frame_take.
  change (map key ?l) with (key <$> l). rewrite list_fmap_omap.
  apply omap_ext_elem_of. intros i _. by rewrite list_lookup_fmap.
Qed.
End nargsort.

Section insertion_argsort.
Variable before : Z → Z → bool.
Hypothesis before_true : ∀ a b, before a b = true → a ≤ b.
Hypothesis before_false : ∀ a b, before a b = false → b ≤ a.
Variable keys : list Z.

Let by_key (i j : nat) : Prop := key_at keys i ≤ key_at keys j.

Lemma insert_index_Permutation i sorted :
  insert_index before keys i sorted ≡ₚ i :: sorted.
Proof.
  induction sorted as [|j rest IH]; simpl; [done|].
  destruct (before _ _); [done|]. rewrite IH. apply Permutation_swap.
Qed.

Lemma insert_index_HdRel i j sorted :
  by_key j i → HdRel by_key j sorted →
  HdRel by_key j (insert_index before keys i sorted).
Proof.
  intros Hji Hhd. destruct sorted as [|j' rest]; simpl; [by constructor|].
  destruct (before _ _); constructor; [done|]. by inv Hhd.
Qed.

Lemma insert_index_Sorted i sorted :
  Sorted by_key sorted → Sorted by_key (insert_index before keys i sorted).
Proof.
  induction 1 as [|j rest Hsorted IH Hhd]; simpl; [by repeat constructor|].
  destruct (before _ _) eqn:Hcmp.
  - constructor; [by constructor|]. constructor. by apply before_true.
  - constructor; [done|]. apply insert_index_HdRel; [|done].
    by apply before_false.
Qed.

Lemma insertion_argsort_Permutation :
  insertion_argsort before keys ≡ₚ seq 0 (length keys).
Proof.
  unfold insertion_argsort.
  assert (∀ l acc, foldl (fun sorted i => insert_index before keys i sorted) acc l
                   ≡ₚ acc ++ l) as Hfold.
  { induction l as [|i l IH]; intros acc; simpl; [by rewrite app_nil_r|].
    rewrite IH, insert_index_Permutation. simpl. apply Permutation_middle. }
  by rewrite Hfold.
Qed.

Lemma insertion_argsort_by_key : Sorted by_key (insertion_argsort before keys).
Proof.
  unfold insertion_argsort.
  assert (∀ l acc, Sorted by_key acc →
            Sorted by_key (foldl (fun sorted i => insert_index before keys i sorted) acc l))
    as Hfold.
  { induction l as [|i l IH]; intros acc Hacc; simpl; [done|].
    by apply IH, insert_index_Sorted. }
  apply Hfold. constructor.
Qed.

Lemma insertion_argsort_Sorted :
  Sorted Z.le (omap (fun i => keys !! i) (insertion_argsort before keys)).
Proof.
  rewrite (omap_ext_elem_of _ (fun i => Some (key_at keys i))).
  - assert (∀ l : list nat, omap (fun i => Some (key_at keys i)) l = key_at keys <$> l)
      as ->.
    { induction l as [|i l IH]; [done|]. csimpl. by rewrite IH. }
    eapply Sorted_fmap; [|apply insertion_argsort_by_key]. done.
  - intros i Hi. rewrite insertion_argsort_Permutation in Hi.
    apply elem_of_seq in Hi. unfold key_at.
    destruct (lookup_lt_is_Some_2 keys i) as [k ->]; [lia|done].
Qed.
End insertion_argsort.

(** The insertion sort that leaves equal keys in their order. *)
#[local] Instance stable_argsort : Argsort.
Proof.
  refine {| argsort := insertion_argsort Z.ltb |}.
  - apply insertion_argsort_Permutation.
  - apply insertion_argsort_Sorted; intros a b; lia.
Defined.

(** NumPy's routine, behind the check of its result. *)
#[local] Instance numpy_quicksort : Argsort.
Proof.
  refine {| argsort := numpy_argsort |}.
  - intros keys. unfold numpy_argsort. cbv zeta.
    destruct (is_argsort keys (aquicksort keys)) eqn:Hcheck;
      [|apply insertion_argsort_Permutation].
    apply andb_true_iff in Hcheck as [Hindices%bool_decide_eq_true _].
    rewrite <- Hindices. symmetry. apply merge_sort_Permutation.
  - intros keys. unfold numpy_argsort. cbv zeta.
    destruct (is_argsort keys (aquicksort keys)) eqn:Hcheck;
      [|apply insertion_argsort_Sorted; intros a b; lia].
    by apply andb_true_iff in Hcheck as [_ Hsorted%bool_decide_eq_true].
Defined.

(** ** Key columns in sorted order *)

Lemma Sorted_na_last (ascending : bool) (vals : list Z) (n : nat) :
  Sorted (if ascending then Z.le else flip Z.le) vals →
  Sorted (na_last ascending) ((Some <$> vals) ++ replicate n None).
Proof.
  induction 1 as [|v vals Hsorted IH Hhd]; simpl.
  - induction n as [|n IHn]; simpl; [constructor|].
    constructor; [done|]. destruct n; constructor. done.
  - constructor; [done|].
    destruct Hhd as [|w vals' Hvw]; simpl.
    + destruct n; constructor. done.
    + constructor. simpl. by destruct ascending.
Qed.

Lemma Sorted_fmap_inv {A B} (f : A → B) (R : relation B) (l : list A) :
  Sorted R (f <$> l) → Sorted (fun a b => R (f a) (f b)) l.
Proof.
  induction l as [|a l IH]; [constructor|].
  intros Hsorted. apply Sorted_inv in Hsorted as [Hsorted Hhd].
  constructor; [by apply IH|].
  destruct l; [constructor|]. constructor. by inv Hhd.
Qed.

Lemma sort_values_Sorted `{Argsort} {A} (key : A → option Z) (ascending : bool)
    (rows : list A) :
  Sorted (fun a b => na_last ascending (key a) (key b)) (sort_values key ascending rows).
Proof.
  destruct (sort_values_keys key ascending rows) as (vals & n & Hkeys & Hsorted).
  apply Sorted_fmap_inv. change (key <$> ?l) with (map key l).
  rewrite Hkeys. by apply Sorted_na_last.
Qed.

(** A key column with its values, then [n] NaNs, that is a rearrangement
    of a column without NaN has no NaN, and the same values. *)
Lemma values_then_nans_Permutation (vals l : list Z) (n : nat) :
  (Some <$> vals) ++ replicate n None ≡ₚ Some <$> l → n = 0%nat ∧ vals ≡ₚ l.
Proof.
  intros Hperm.
  assert (∀ l : list Z, omap id (Some <$> l) = l) as Hdrop.
  { intros l'. induction l' as [|x l' IH]; [done|]. csimpl. by rewrite IH. }
  assert (∀ m, omap id (replicate m (@None Z)) = []) as Hnans.
  { intros m. induction m as [|m IH]; [done|]. by csimpl. }
  pose proof (omap_Permutation id _ _ Hperm) as Hvals.
  rewrite omap_app, !Hdrop, Hnans, app_nil_r in Hvals.
  split; [|done].
  apply Permutation_length in Hperm, Hvals.
  rewrite length_app, !length_fmap, length_replicate in Hperm. lia.
Qed.

(** ** Running sums *)

Lemma length_cumsum_from t total col : length (cumsum_from t total col) = length col.
Proof.
  revert total. induction col as [|[v|] col IH]; intros total; simpl; by rewrite ?IH.
Qed.

Lemma wrap_int64_small (z : Z) : - 2 ^ 63 ≤ z < 2 ^ 63 → wrap_int64 z = z.
Proof. intros Hz. unfold wrap_int64. rewrite Z.mod_small; lia. Qed.

Lemma round_float64_small (z : Z) : Z.abs z ≤ 2 ^ 53 → round_float64 z = z.
Proof.
  intros Hz. destruct (decide (Z.abs z = 2 ^ 53)) as [Hends|Hinside].
  - destruct (Z.abs_eq_or_opp z) as [Heq|Heq]; rewrite Heq in Hends.
    + by subst z.
    + assert (z = - 2 ^ 53) as -> by lia. reflexivity.
  - unfold round_float64. cbv zeta.
    destruct (decide (Z.abs z = 0)) as [Hzero|Hpos].
    { by rewrite Hzero. }
    assert (Z.log2 (Z.abs z) < 53) by (apply Z.log2_lt_pow2; lia).
    rewrite (proj2 (Z.leb_le _ _)); [done|lia].
Qed.

Lemma add_in_exact (t : storage) (a b : Z) :
  Z.abs (a + b) ≤ exact_up_to t → add_in t a b = a + b.
Proof.
  destruct t; simpl; intros Hsum.
  - apply wrap_int64_small. lia.
  - by apply round_float64_small.
Qed.

Lemma sum_abs_nonneg col : 0 ≤ sum_abs col.
Proof.
  unfold sum_abs. induction (dropna col) as [|v vals IH]; simpl; lia.
Qed.

Lemma sum_abs_cons_Some v col : sum_abs (Some v :: col) = Z.abs v + sum_abs col.
Proof. done. Qed.

Lemma sum_abs_cons_None col : sum_abs (None :: col) = sum_abs col.
Proof. done. Qed.

Lemma sum_abs_Permutation col1 col2 : col1 ≡ₚ col2 → sum_abs col1 = sum_abs col2.
Proof.
  intros Hperm. unfold sum_abs, dropna.
  apply (foldr_permutation (=) (fun v total => Z.abs v + total) 0).
  - intros j1 a1 j2 a2 b _ _ _. lia.
  - by apply omap_Permutation.
Qed.

Lemma sum_values_Permutation col1 col2 : col1 ≡ₚ col2 → sum_values col1 = sum_values col2.
Proof.
  intros Hperm. unfold sum_values, dropna.
  apply (foldr_permutation (=) Z.add 0).
  - intros j1 a1 j2 a2 b _ _ _. lia.
  - by apply omap_Permutation.
Qed.

(** As long as the magnitudes of the cells add up to no more than the
    dtype holds exactly, [cumsum] is the running sum of the integers. *)
Lemma cumsum_from_exact t total col :
  Z.abs total + sum_abs col ≤ exact_up_to t →
  cumsum_from t total col = running_sum_from total col.
Proof.
  revert total. induction col as [|[v|] col IH]; intros total Hsum; [done| |].
  - rewrite sum_abs_cons_Some in Hsum. pose proof (sum_abs_nonneg col).
    simpl. rewrite add_in_exact by lia. f_equal. apply IH. lia.
  - simpl. f_equal. by apply IH.
Qed.

Lemma cumsum_exact t col :
  sum_abs col ≤ exact_up_to t → cumsum t col = running_sum col.
Proof. intros Hsum. apply cumsum_from_exact. simpl. lia. Qed.

Lemma nan_add_assoc a b c : nan_add a (nan_add b c) = nan_add (nan_add a b) c.
Proof. destruct a, b, c; simpl; f_equal; lia. Qed.

Lemma nan_add_comm a b : nan_add a b = nan_add b a.
Proof. destruct a, b; simpl; f_equal; lia. Qed.

Lemma nan_sum_Permutation col1 col2 : col1 ≡ₚ col2 → nan_sum col1 = nan_sum col2.
Proof.
  unfold nan_sum. apply (foldr_permutation (=) nan_add (Some 0)).
  intros j1 a1 j2 a2 b _ _ _.
  by rewrite !nan_add_assoc, (nan_add_comm a1 a2).
Qed.

(** Without NaN the sum of cells is the sum of integers. *)
Lemma nan_sum_values (vals : list Z) :
  nan_sum (Some <$> vals) = Some (foldr Z.add 0 vals).
Proof.
  induction vals as [|v vals IH]; [done|].
  unfold nan_sum in *. rewrite fmap_cons. cbn [foldr]. by rewrite IH.
Qed.

Lemma nan_sum_nan col : None ∈ col → nan_sum col = None.
Proof.
  induction col as [|a col IH]; intros Hin; [by apply elem_of_nil in Hin|].
  unfold nan_sum in *. simpl.
  apply elem_of_cons in Hin as [<-|Hin]; [done|].
  rewrite IH by done. by destruct a.
Qed.

(** On a column whose NaNs come last, the running sum at a position is
    the sum of the cells up to and including it. *)
Lemma running_sum_from_lookup total (vals : list Z) (n i : nat) :
  (i < length vals + n)%nat →
  running_sum_from total ((Some <$> vals) ++ replicate n None) !! i
  = Some (nan_add (Some total)
            (nan_sum (firstn (S i) ((Some <$> vals) ++ replicate n None)))).
Proof.
  revert total i. induction vals as [|v vals IH]; intros total i Hi.
  - simpl in *. destruct n as [|n]; [lia|]. simpl.
    assert (∀ m t j, (j < m)%nat → running_sum_from t (replicate m None) !! j = Some None)
      as Hnans.
    { induction m as [|m IHm]; intros t j Hj; [lia|].
      destruct j as [|j]; simpl; [done|]. apply IHm. lia. }
    destruct i as [|i]; simpl; [done|]. apply Hnans. lia.
  - destruct i as [|i]; simpl.
    + unfold nan_sum. simpl. do 2 f_equal. lia.
    + rewrite IH by (simpl in Hi; lia).
      f_equal. destruct (nan_sum _); simpl; f_equal; lia.
Qed.

Lemma running_sum_lookup (vals : list Z) (n i : nat) :
  (i < length vals + n)%nat →
  running_sum ((Some <$> vals) ++ replicate n None) !! i
  = Some (nan_sum (firstn (S i) ((Some <$> vals) ++ replicate n None))).
Proof.
  intros Hi. unfold running_sum. rewrite running_sum_from_lookup by done.
  by destruct (nan_sum _).
Qed.

(** ** The ranking view *)

Lemma sort_values_nil `{Argsort} {A} (key : A → option Z) (ascending : bool) :
  sort_values key ascending [] = [].
Proof. apply Permutation_nil_r. by rewrite sort_values_Permutation. Qed.

Lemma no_rows_true {A} (df : list A) : no_rows df = true → df = [].
Proof. by destruct df. Qed.

Lemma shown_ranking_view `{Argsort} (df : list HomeRunRecord) (threshold : Z) :
  shown (ranking_view df (Some threshold))
  = sort_values Career_Home_Runs false
      (filter (fun r => ge_scalar (Career_Home_Runs r) threshold) df).
Proof.
  unfold ranking_view. destruct df as [|r df]; [symmetry; apply sort_values_nil|].
  cbn [no_rows]. destruct (no_rows _) eqn:Hnone; [|done].
  apply no_rows_true in Hnone as ->. by rewrite sort_values_nil.
Qed.

(** On a table of up to 17 rows NumPy's routine is its insertion sort, and
    the ranking keeps tied rows in table order. *)
Example ranking_view_short_table :
  shown (@ranking_view numpy_quicksort [Williams; Mantle; McCovey] (Some 100))
  = [Mantle; Williams; McCovey].
Proof. vm_compute. reflexivity. Qed.



(** ** The cumulative series view *)

Lemma shown_cumulative_view `{Argsort} (df : list StrikeoutRecord) (league : string) :
  shown (cumulative_view df (Some league))
  = let df_k := sort_values Career_Strikeouts true
                  (filter (fun r => eq_scalar (League r) league) df) in
    zip df_k (cumsum (dtype_of (map Career_Strikeouts df))
                     (map Career_Strikeouts df_k)).
Proof.
  unfold cumulative_view.
  destruct df as [|r df]; [by rewrite filter_nil, sort_values_nil|].
  cbn [no_rows]. cbv zeta. destruct (no_rows _) eqn:Hnone; [|done].
  apply no_rows_true in Hnone. by rewrite Hnone.
Qed.

Lemma eq_scalar_spec (cell : option string) (text : string) :
  eq_scalar cell text ↔ cell = Some text.
Proof.
  destruct cell as [v|]; simpl; [|done].
  rewrite bool_decide_spec. split; [by intros ->|by intros [= ->]].
Qed.

(** C4 does not hold as stated: the running sum is taken in the column's
    dtype.  Two counts of 2^62 in an [int64] column get the cumulative
    values 2^62 and -2^63, not 2^62 and 2^63. *)
Lemma cumulative_view_wraps :
  let out := shown (@cumulative_view stable_argsort strikeouts_wrapping (Some "AL")) in
  map Career_Strikeouts (map fst out) = [Some (2 ^ 62); Some (2 ^ 62)] ∧
  map snd out = [Some (2 ^ 62); Some (- 2 ^ 63)] ∧
  map snd out !! 1%nat ≠ Some (Some (2 ^ 62 + 2 ^ 62)).
Proof. vm_compute. repeat split; discriminate. Qed.

(** C4, amended.  The cumulative series view keeps the rows of the
    selected league, in ascending order of [Career_Strikeouts] (a NaN
    after every value).  As long as the magnitudes of the league's counts
    add up to no more than the column's dtype holds exactly (2^63 - 1 in
    [int64]; 2^53 in [float64], the dtype of a column with a NULL), each
    row gets the sum of [Career_Strikeouts] over that row and the rows
    before it (NaN for a row that has NaN itself); strikeout values 40,
    10, 25 in any order come out as 10, 25, 40 with cumulative values 10,
    35, 75. *)
Theorem cumulative_view_spec `{Argsort} (df_career_strikeouts : list StrikeoutRecord)
    (league : string) :
  let out := shown (cumulative_view df_career_strikeouts (Some league)) in
  let sorted := map fst out in
  let Cumulative := map snd out in
  let matching := filter (fun r => League r = Some league) df_career_strikeouts in
  let t := dtype_of (map Career_Strikeouts df_career_strikeouts) in
  sorted ≡ₚ matching ∧
  Sorted (fun a b => na_last true (Career_Strikeouts a) (Career_Strikeouts b)) sorted ∧
  length Cumulative = length sorted ∧
  (sum_abs (map Career_Strikeouts matching) ≤ exact_up_to t →
   (∀ i, (i < length sorted)%nat →
         Cumulative !! i
         = Some (nan_sum (firstn (S i) (map Career_Strikeouts sorted)))) ∧
   (∀ vals, map Career_Strikeouts sorted = Some <$> vals →
            ∀ i, (i < length vals)%nat →
                 Cumulative !! i = Some (Some (foldr Z.add 0 (firstn (S i) vals))))) ∧
  (map Career_Strikeouts matching ≡ₚ [Some 40; Some 10; Some 25] →
   map Career_Strikeouts sorted = [Some 10; Some 25; Some 40] ∧
   Cumulative = [Some 10; Some 35; Some 75]).
Proof.
  cbv zeta. rewrite shown_cumulative_view. cbv zeta.
  rewrite (list_filter_iff (fun r => eq_scalar (League r) league)
             (fun r => League r = Some league))
    by (intros r; by rewrite eq_scalar_spec).
  set (matching := filter _ df_career_strikeouts).
  set (df_k := sort_values Career_Strikeouts true matching).
  generalize (dtype_of (map Career_Strikeouts df_career_strikeouts)). intros t.
  assert (length (cumsum t (map Career_Strikeouts df_k)) = length df_k) as Hlen.
  { unfold cumsum. by rewrite length_cumsum_from, length_map. }
  change (map fst ?l) with (l.*1). change (map snd ?l) with (l.*2).
  rewrite fst_zip, snd_zip by lia.
  destruct (sort_values_keys Career_Strikeouts true matching)
    as (vals & n & Hkeys & Hsorted).
  fold df_k in Hkeys.
  assert (df_k ≡ₚ matching) as Hperm by apply sort_values_Permutation.
  assert (map Career_Strikeouts df_k ≡ₚ map Career_Strikeouts matching) as Hcounts.
  { change (map ?f ?l) with (f <$> l). by rewrite Hperm. }
  assert (sum_abs (map Career_Strikeouts matching) ≤ exact_up_to t →
          ∀ i, (i < length df_k)%nat →
               cumsum t (map Career_Strikeouts df_k) !! i
               = Some (nan_sum (firstn (S i) (map Career_Strikeouts df_k))))
    as Hrunning.
  { intros Hexact i Hi.
    rewrite cumsum_exact by (by rewrite (sum_abs_Permutation _ _ Hcounts)).
    rewrite Hkeys. apply running_sum_lookup.
    rewrite <- (length_map Career_Strikeouts), Hkeys in Hi.
    by rewrite length_app, length_fmap, length_replicate in Hi. }
  split; [done|]. split; [apply sort_values_Sorted|]. split; [done|]. split.
  - intros Hexact. split; [by apply Hrunning|].
    intros ints Hints i Hi.
    rewrite Hrunning;
      [|done|by rewrite <- (length_map Career_Strikeouts), Hints, length_fmap].
    by rewrite Hints, <- fmap_take, nan_sum_values.
  - intros Hvalues.
    assert ((Some <$> vals) ++ replicate n None ≡ₚ Some <$> [40; 10; 25]) as Hshape.
    { by rewrite <- Hkeys, Hcounts. }
    apply values_then_nans_Permutation in Hshape as [-> Hvals].
    assert (vals = [10; 25; 40]) as ->.
    { apply (Sorted_unique Z.le); [done| |].
      - repeat constructor; lia.
      - rewrite Hvals. apply (bool_decide_unpack _). vm_compute. exact I. }
    rewrite Hkeys. split; [done|]. by destruct t.
Qed.

Lemma cumulative_view_spec_witness :
  let out := shown (@cumulative_view stable_argsort strikeouts_40_10_25 (Some "AL")) in
  (map Career_Strikeouts (map fst out) = [Some 10; Some 25; Some 40] ∧
   map snd out = [Some 10; Some 35; Some 75]) ∧
  ∀ i, (i < length (map fst out))%nat →
       map snd out !! i
       = Some (nan_sum (firstn (S i) (map Career_Strikeouts (map fst out)))).
Proof.
  destruct (@cumulative_view_spec stable_argsort strikeouts_40_10_25 "AL")
    as (_ & _ & _ & Hsums & Hcase).
  split.
  - apply Hcase. vm_compute. apply (bool_decide_unpack _). vm_compute. exact I.
  - apply Hsums. vm_compute. discriminate.
Defined.

Lemma cumulative_column `{Argsort} (df : list StrikeoutRecord) (league : string) :
  map snd (shown (cumulative_view df (Some league)))
  = cumsum (dtype_of (map Career_Strikeouts df))
      (map Career_Strikeouts
         (sort_values Career_Strikeouts true
            (filter (fun r => League r = Some league) df))).
Proof.
  rewrite shown_cumulative_view. cbv zeta.
  rewrite (list_filter_iff (fun r => League r = Some league)
             (fun r => eq_scalar (League r) league))
    by (intros r; by rewrite eq_scalar_spec).
  change (map snd ?l) with (l.*2). apply snd_zip.
  unfold cumsum. by rewrite length_cumsum_from, length_map.
Qed.

Lemma dropna_Some {A} (vals : list A) : dropna (Some <$> vals) = vals.
Proof.
  unfold dropna. induction vals as [|v vals IH]; [done|]. csimpl. by rewrite IH.
Qed.

Lemma length_running_sum_from total col :
  length (running_sum_from total col) = length col.
Proof.
  revert total. induction col as [|[v|] col IH]; intros total; simpl; by rewrite ?IH.
Qed.

Lemma last_running_sum (vals : list Z) :
  vals ≠ [] →
  last (running_sum (Some <$> vals)) = Some (Some (foldr Z.add 0 vals)).
Proof.
  intros Hne. rewrite last_lookup. unfold running_sum at 1.
  rewrite length_running_sum_from, length_fmap.
  pose proof (running_sum_lookup vals 0 (pred (length vals))) as Hlookup.
  simpl in Hlookup. rewrite app_nil_r in Hlookup.
  destruct vals as [|v vals]; [done|].
  rewrite Hlookup by (simpl; lia).
  rewrite firstn_all2 by (rewrite length_fmap; simpl; lia).
  by rewrite nan_sum_values.
Qed.

Lemma cumsum_from_NaN t total col (i : nat) :
  col !! i = Some None → cumsum_from t total col !! i = Some None.
Proof.
  revert total i. induction col as [|[v|] col IH]; intros total [|i]; simpl;
    try done; apply IH.
Qed.

Lemma dtype_of_Permutation col col' : col ≡ₚ col' → dtype_of col = dtype_of col'.
Proof.
  intros Hperm. unfold dtype_of.
  assert (forallb (fun cell : option Z => bool_decide (is_Some cell)) col
          = forallb (fun cell : option Z => bool_decide (is_Some cell)) col') as ->;
    [|done].
  induction Hperm as [|x l l' _ IH|x y l|l l' l'' _ IH1 _ IH2]; simpl;
    [done|by rewrite IH| |congruence].
  by destruct (bool_decide (is_Some x)), (bool_decide (is_Some y)).
Qed.

(** A sorted key column is fixed by the cells it holds. *)
Lemma keys_shape_unique (vals vals' : list Z) (n n' : nat) :
  (Some <$> vals) ++ replicate n None ≡ₚ (Some <$> vals') ++ replicate n' None →
  Sorted Z.le vals → Sorted Z.le vals' → vals = vals' ∧ n = n'.
Proof.
  intros Hperm Hsorted Hsorted'.
  assert (∀ m, omap id (replicate m (@None Z)) = []) as Hnans.
  { intros m. induction m as [|m IH]; [done|]. by csimpl. }
  pose proof (omap_Permutation id _ _ Hperm) as Hvals.
  rewrite !omap_app, !Hnans, !app_nil_r in Hvals.
  fold (dropna (Some <$> vals)) in Hvals. fold (dropna (Some <$> vals')) in Hvals.
  rewrite !dropna_Some in Hvals.
  split; [by apply (Sorted_unique Z.le)|].
  apply Permutation_length in Hperm, Hvals.
  rewrite !length_app, !length_fmap, !length_replicate in Hperm. lia.
Qed.

Lemma sorted_counts_Permutation `{Argsort} (rows rows' : list StrikeoutRecord) :
  rows ≡ₚ rows' →
  map Career_Strikeouts (sort_values Career_Strikeouts true rows)
  = map Career_Strikeouts (sort_values Career_Strikeouts true rows').
Proof.
  intros Hperm.
  assert (map Career_Strikeouts (sort_values Career_Strikeouts true rows)
          ≡ₚ map Career_Strikeouts (sort_values Career_Strikeouts true rows'))
    as Hcounts.
  { apply Permutation_map.
    etrans; [apply sort_values_Permutation|]. rewrite Hperm.
    symmetry. apply sort_values_Permutation. }
  destruct (sort_values_keys Career_Strikeouts true rows)
    as (vals & n & Hkeys & Hsorted).
  destruct (sort_values_keys Career_Strikeouts true rows')
    as (vals' & n' & Hkeys' & Hsorted').
  rewrite Hkeys, Hkeys' in Hcounts |- *.
  by destruct (keys_shape_unique _ _ _ _ Hcounts Hsorted Hsorted') as [-> ->].
Qed.

(** C10 does not hold as stated.  A row of the league without a count is
    sorted last and its cumulative value is NaN, while the counts that are
    there add up to a number; and the running sum is taken in the column's
    dtype, where 2^62 and 2^62 add up to -2^63. *)
Lemma cumulative_view_last_not_total :
  (let counts := map Career_Strikeouts
                   (filter (fun r => League r = Some "AL") strikeouts_missing) in
   last (map snd (shown (@cumulative_view stable_argsort strikeouts_missing
                           (Some "AL")))) = Some None ∧
   counts = [Some 40; None; Some 10] ∧
   sum_values counts = 50) ∧
  (let counts := map Career_Strikeouts
                   (filter (fun r => League r = Some "AL") strikeouts_wrapping) in
   last (map snd (shown (@cumulative_view stable_argsort strikeouts_wrapping
                           (Some "AL")))) = Some (Some (- 2 ^ 63)) ∧
   sum_values counts = 2 ^ 63).
Proof. vm_compute. repeat split. Qed.

(** C10, amended.  When the selected league has rows, none of them without
    a count, and the magnitudes of the counts add up to no more than the
    column's dtype holds exactly, the last cumulative value is the sum of
    [Career_Strikeouts] over the rows of the league; when a row of the
    league has no count, the last cumulative value is NaN.  In every case
    the cumulative values do not depend on the order of the rows in the
    table. *)
Theorem cumulative_view_total `{Argsort} (df_career_strikeouts : list StrikeoutRecord)
    (league : string) :
  let Cumulative df := map snd (shown (cumulative_view df (Some league))) in
  let counts :=
    map Career_Strikeouts
        (filter (fun r => League r = Some league) df_career_strikeouts) in
  let t := dtype_of (map Career_Strikeouts df_career_strikeouts) in
  (counts ≠ [] → None ∉ counts → sum_abs counts ≤ exact_up_to t →
   last (Cumulative df_career_strikeouts) = Some (Some (sum_values counts))) ∧
  (None ∈ counts → last (Cumulative df_career_strikeouts) = Some None) ∧
  ∀ df', df' ≡ₚ df_career_strikeouts →
         Cumulative df' = Cumulative df_career_strikeouts.
Proof.
  cbv zeta. split; [|split].
  - rewrite cumulative_column.
    set (matching := filter _ df_career_strikeouts).
    generalize (dtype_of (map Career_Strikeouts df_career_strikeouts)). intros t.
    intros Hrows Hnone Hexact.
    set (df_k := sort_values Career_Strikeouts true matching).
    assert (map Career_Strikeouts df_k ≡ₚ map Career_Strikeouts matching) as Hcounts.
    { apply Permutation_map, sort_values_Permutation. }
    destruct (sort_values_keys Career_Strikeouts true matching)
      as (vals & n & Hkeys & _).
    fold df_k in Hkeys.
    assert (n = 0%nat) as ->.
    { destruct n; [done|]. exfalso. apply Hnone. rewrite <- Hcounts, Hkeys.
      apply elem_of_app. right. by left. }
    simpl in Hkeys. rewrite app_nil_r in Hkeys.
    rewrite cumsum_exact by (by rewrite (sum_abs_Permutation _ _ Hcounts)).
    rewrite <- (sum_values_Permutation _ _ Hcounts), Hkeys.
    unfold sum_values. rewrite dropna_Some. apply last_running_sum.
    intros ->. apply Hrows. apply Permutation_nil_r.
    by rewrite <- Hcounts, Hkeys.
  - rewrite cumulative_column.
    set (matching := filter _ df_career_strikeouts).
    generalize (dtype_of (map Career_Strikeouts df_career_strikeouts)). intros t.
    intros Hnan.
    set (df_k := sort_values Career_Strikeouts true matching).
    assert (map Career_Strikeouts df_k ≡ₚ map Career_Strikeouts matching) as Hcounts.
    { apply Permutation_map, sort_values_Permutation. }
    destruct (sort_values_keys Career_Strikeouts true matching)
      as (vals & n & Hkeys & _).
    fold df_k in Hkeys. rewrite <- Hcounts, Hkeys in Hnan. rewrite Hkeys.
    destruct n as [|n].
    { simpl in Hnan. rewrite app_nil_r in Hnan.
      by apply list_elem_of_fmap in Hnan as (? & ? & _). }
    rewrite last_lookup. unfold cumsum. rewrite length_cumsum_from.
    apply cumsum_from_NaN.
    rewrite length_app, length_fmap, length_replicate.
    rewrite lookup_app_r by (rewrite length_fmap; lia).
    apply lookup_replicate_2. rewrite length_fmap. lia.
  - intros df' Hperm. rewrite !cumulative_column.
    rewrite (dtype_of_Permutation (map Career_Strikeouts df')
               (map Career_Strikeouts df_career_strikeouts))
      by (change (map ?f ?l) with (f <$> l); by rewrite Hperm).
    f_equal. apply sorted_counts_Permutation. by rewrite Hperm.
Qed.

Lemma cumulative_view_total_witness :
  last (map snd (shown (@cumulative_view stable_argsort
                          strikeouts_40_10_25 (Some "AL"))))
  = Some (Some 75) ∧
  map snd (shown (@cumulative_view stable_argsort
                    (reverse strikeouts_40_10_25) (Some "AL")))
  = map snd (shown (@cumulative_view stable_argsort
                      strikeouts_40_10_25 (Some "AL"))).
Proof.
  destruct (@cumulative_view_total stable_argsort strikeouts_40_10_25 "AL")
    as (Htotal & _ & Horder).
  split.
  - apply Htotal.
    + intros Hnone. vm_compute in Hnone. discriminate Hnone.
    + apply (bool_decide_unpack _). vm_compute. exact I.
    + vm_compute. discriminate.
  - apply Horder, reverse_Permutation.
Defined.

(** ** The time series view *)

Lemma filter_Forall_id {A} (P : A → Prop) `{∀ x, Decision (P x)} (l : list A) :
  Forall P l → filter P l = l.
Proof.
  induction 1 as [|x l Hx _ IH]; [done|].
  by rewrite filter_cons_True, IH.
Qed.

Lemma isin_spec {A} `{EqDecision A} (cell : option A) (values : list A) :
  isin cell values ↔ ∃ v, cell = Some v ∧ v ∈ values.
Proof.
  destruct cell as [v|]; simpl.
  - rewrite bool_decide_spec. split; [by exists v|by intros (? & [= <-] & ?)].
  - split; [done|by intros (? & ? & ?)].
Qed.

Lemma elem_of_all_years (df : list BattingRecord) (y : Z) :
  y ∈ all_years df ↔ ∃ r, r ∈ df ∧ Year r = Some y.
Proof.
  unfold all_years, sorted_ints, unique, dropna.
  rewrite merge_sort_Permutation, elem_of_remove_dups, list_elem_of_omap.
  split.
  - intros (cell & Hcell & Heq). unfold id in Heq. subst cell.
    apply list_elem_of_fmap in Hcell as (r & ? & ?). by exists r.
  - intros (r & ? & ?). exists (Some y). split; [|done].
    apply list_elem_of_fmap. by exists r.
Qed.

Lemma elem_of_all_teams (df : list BattingRecord) (t : string) :
  t ∈ all_teams df ↔ ∃ r, r ∈ df ∧ Team r = Some t.
Proof.
  unfold all_teams, sorted_texts, unique, dropna.
  rewrite merge_sort_Permutation, elem_of_remove_dups, list_elem_of_omap.
  split.
  - intros (cell & Hcell & Heq). unfold id in Heq. subst cell.
    apply list_elem_of_fmap in Hcell as (r & ? & ?). by exists r.
  - intros (r & ? & ?). exists (Some t). split; [|done].
    apply list_elem_of_fmap. by exists r.
Qed.

(** C5 does not hold as stated: a row whose [Year] (or [Team]) is NaN
    passes an empty selection but is in no selected value, not even when
    every available year (team) is selected. *)
Lemma time_series_selection_drops_nan :
  let df := [Ruth_2001; Ruth_no_year; Ruth_no_team] in
  all_years df = [2001; 2002] ∧
  time_series df [] [] = Rows [Ruth_2001; Ruth_no_year; Ruth_no_team] ∧
  time_series df (all_years df) [] = Rows [Ruth_2001; Ruth_no_team] ∧
  time_series df [] (all_teams df) = Rows [Ruth_2001; Ruth_no_year] ∧
  time_series df [] [] ≠ time_series df (all_years df) [] ∧
  time_series df [] [] ≠ time_series df [] (all_teams df).
Proof.
  cbv zeta.
  assert (time_series [Ruth_2001; Ruth_no_year; Ruth_no_team] [] []
          = Rows [Ruth_2001; Ruth_no_year; Ruth_no_team]) as ->
    by (vm_compute; reflexivity).
  assert (time_series [Ruth_2001; Ruth_no_year; Ruth_no_team]
            (all_years [Ruth_2001; Ruth_no_year; Ruth_no_team]) []
          = Rows [Ruth_2001; Ruth_no_team]) as ->
    by (vm_compute; reflexivity).
  assert (time_series [Ruth_2001; Ruth_no_year; Ruth_no_team] []
            (all_teams [Ruth_2001; Ruth_no_year; Ruth_no_team])
          = Rows [Ruth_2001; Ruth_no_year]) as ->
    by (vm_compute; reflexivity).
  split; [vm_compute; reflexivity|]. do 3 (split; [done|]).
  split; intros Heq; apply (f_equal (fun d => length (shown d))) in Heq;
    discriminate Heq.
Qed.

(** C5, amended.  On a table in which no row has a NaN [Year], the time
    series view with no year selected is the view with every available
    year selected; likewise for [Team]. *)
Theorem time_series_empty_selection (df_batting : list BattingRecord)
    (years : list Z) (teams : list string) :
  (Forall (fun r => is_Some (Year r)) df_batting →
   time_series df_batting [] teams
   = time_series df_batting (all_years df_batting) teams) ∧
  (Forall (fun r => is_Some (Team r)) df_batting →
   time_series df_batting years []
   = time_series df_batting years (all_teams df_batting)).
Proof.
  split; intros Hall; unfold time_series;
    (destruct (no_rows df_batting); [done|]).
  - destruct (all_years df_batting) as [|y ys] eqn:Hyears; [done|].
    rewrite <- Hyears.
    rewrite (filter_Forall_id (fun r => isin (Year r) (all_years df_batting)));
      [done|].
    apply Forall_forall. intros r Hr. apply isin_spec.
    rewrite Forall_forall in Hall. destruct (Hall r Hr) as [v Hv].
    exists v. split; [done|]. apply elem_of_all_years. by exists r.
  - destruct (all_teams df_batting) as [|t ts] eqn:Hteams; [done|].
    rewrite <- Hteams.
    set (df_line := match years with [] => df_batting | _ :: _ => _ end).
    assert (df_line ⊆ df_batting) as Hsub.
    { unfold df_line. destruct years; [done|]. by apply list_subseteq_filter. }
    rewrite (filter_Forall_id (fun r => isin (Team r) (all_teams df_batting)));
      [done|].
    apply Forall_forall. intros r Hr%Hsub. apply isin_spec.
    rewrite Forall_forall in Hall. destruct (Hall r Hr) as [v Hv].
    exists v. split; [done|]. apply elem_of_all_teams. by exists r.
Qed.

Lemma time_series_empty_selection_witness :
  time_series [Ruth_2001; Cobb_2001; Ruth_2002] [] ["NYY"]
  = time_series [Ruth_2001; Cobb_2001; Ruth_2002]
      (all_years [Ruth_2001; Cobb_2001; Ruth_2002]) ["NYY"] ∧
  time_series [Ruth_2001; Cobb_2001; Ruth_2002] [2001] []
  = time_series [Ruth_2001; Cobb_2001; Ruth_2002] [2001]
      (all_teams [Ruth_2001; Cobb_2001; Ruth_2002]).
Proof.
  destruct (time_series_empty_selection [Ruth_2001; Cobb_2001; Ruth_2002]
              [2001] ["NYY"]) as [Hyears Hteams].
  split; [apply Hyears|apply Hteams]; repeat constructor; by eexists.
Defined.

(** ** The combined-player view *)

Lemma or_nothing_merge {L R} (l : L) (matches : list R) :
  match matches with
  | [] => [(l, None)]
  | _ :: _ => (fun r => (l, Some r)) <$> matches
  end = pair l <$> or_nothing matches.
Proof.
  destruct matches as [|r matches]; [done|].
  unfold or_nothing. by rewrite <- list_fmap_compose.
Qed.

(** Merging rows that all carry one [Name] attaches the same partners to
    each of them. *)
Lemma merge_left_same_name {L R} (left_Name : L → option string)
    (right_Name : R → option string) (name : option string)
    (left : list L) (right : list R) :
  Forall (fun l => left_Name l = name) left →
  merge_left left_Name right_Name left right
  = l ← left; pair l <$> or_nothing (filter (fun r => right_Name r = name) right).
Proof.
  unfold merge_left. induction 1 as [|l left Hl _ IH]; [done|].
  rewrite !bind_cons, IH. f_equal.
  rewrite Hl. destruct (filter _ right) as [|r matches] eqn:Hfilter; [done|].
  unfold or_nothing. by rewrite <- list_fmap_compose.
Qed.

Lemma fmap_pair_None {L R} (left : list L) :
  (fun l => (l, @None R)) <$> left = l ← left; pair l <$> or_nothing [].
Proof. induction left as [|l left IH]; [done|]. by rewrite fmap_cons, bind_cons, IH. Qed.

Lemma filter_no_rows {A} (P : A → Prop) `{∀ x, Decision (P x)} (df : list A) :
  no_rows df = true → filter P df = [].
Proof. by intros ->%no_rows_true. Qed.

Lemma left_join_steps {B H K} (batting : list B) (hs : list H) (ks : list K) :
  (b ← batting; pair b <$> hs) ≫= (fun row : B * H => pair row <$> ks)
  = b ← batting; h ← hs; k ← ks; [(b, h, k)].
Proof.
  assert (∀ row : B * H, pair row <$> ks = k ← ks; [(row, k)]) as Hks.
  { intros row. induction ks as [|k ks IH]; [done|].
    by rewrite fmap_cons, bind_cons, IH. }
  assert (∀ b : B, (pair b <$> hs) ≫= (fun row : B * H => pair row <$> ks)
                   = h ← hs; k ← ks; [(b, h, k)]) as Hhs.
  { intros b. induction hs as [|h hs IH]; [done|].
    by rewrite fmap_cons, !bind_cons, IH, Hks. }
  induction batting as [|b batting IH]; [done|].
  by rewrite !bind_cons, bind_app, IH, Hhs.
Qed.

(** The two merges of the view compute the left join of the player's
    batting rows with the player's home-run and strikeout rows. *)
Lemma combined_rows_left_join (df_batting : list BattingRecord)
    (df_home_runs : list HomeRunRecord) (df_career_strikeouts : list StrikeoutRecord)
    (player : string) :
  combined_rows df_batting df_home_runs df_career_strikeouts player
  = left_join (filter (fun r => batting_Name r = Some player) df_batting)
              (filter (fun r => hr_Name r = Some player) df_home_runs)
              (filter (fun r => k_Name r = Some player) df_career_strikeouts).
Proof.
  unfold combined_rows, left_join. cbv zeta.
  rewrite (list_filter_iff (fun r => eq_scalar (batting_Name r) player)
             (fun r => batting_Name r = Some player))
    by (intros r; apply eq_scalar_spec).
  set (batting := filter _ df_batting).
  assert (Forall (fun b => batting_Name b = Some player) batting) as Hbatting.
  { apply Forall_forall. by intros b [? _]%list_elem_of_filter. }
  set (home_runs := filter (fun r => hr_Name r = Some player) df_home_runs).
  set (strikeouts := filter (fun r => k_Name r = Some player) df_career_strikeouts).
  assert ((if negb (no_rows df_home_runs)
           then merge_left batting_Name hr_Name batting df_home_runs
           else (fun b => (b, None)) <$> batting)
          = b ← batting; pair b <$> or_nothing home_runs) as ->.
  { destruct (no_rows df_home_runs) eqn:Hhr; simpl.
    - unfold home_runs. rewrite (filter_no_rows _ _ Hhr). apply fmap_pair_None.
    - by apply merge_left_same_name. }
  set (with_hr := batting ≫= _).
  assert (Forall (fun row : BattingRecord * option HomeRunRecord =>
                    batting_Name row.1 = Some player) with_hr) as Hwith_hr.
  { apply Forall_bind. eapply Forall_impl; [exact Hbatting|].
    intros b Hb. by apply Forall_fmap, Forall_true. }
  transitivity (row ← with_hr; pair row <$> or_nothing strikeouts).
  { destruct (no_rows df_career_strikeouts) eqn:Hk; simpl.
    - unfold strikeouts. rewrite (filter_no_rows _ _ Hk). apply fmap_pair_None.
    - by apply (merge_left_same_name
                  (fun row : BattingRecord * option HomeRunRecord => batting_Name row.1)). }
  apply left_join_steps.
Qed.

(** What the view shows for a player who has batting rows. *)
Lemma combined_player_view_shown (df_batting : list BattingRecord)
    (df_home_runs : list HomeRunRecord) (df_career_strikeouts : list StrikeoutRecord)
    (player : string) :
  player ≠ "" →
  combined_rows df_batting df_home_runs df_career_strikeouts player ≠ [] →
  df_batting ≠ [] →
  let rows := combined_rows df_batting df_home_runs df_career_strikeouts player in
  combined_player_view df_batting df_home_runs df_career_strikeouts (Some player)
  = Dataframe
      (Some ("Year", map (fun row : combined_row => cell_int (Year row.1.1)) rows))
      {| nrows := length rows;
         series :=
           [("Batting_Average",
             map (fun row : combined_row => cell_float (Batting_Average row.1.1)) rows)]
           ++ (if no_rows df_home_runs then []
               else [("Career_Home_Runs",
                      map (fun row : combined_row =>
                             cell_int (row.1.2 ≫= Career_Home_Runs)) rows)])
           ++ (if no_rows df_career_strikeouts then []
               else [("Career_Strikeouts",
                      map (fun row : combined_row =>
                             cell_int (row.2 ≫= Career_Strikeouts)) rows)]) |}.
Proof.
  intros Hplayer Hrows Hbatting. cbv zeta. unfold combined_player_view.
  destruct df_batting as [|b0 df_batting]; [done|]. cbn [no_rows].
  destruct player as [|a player]; [done|].
  destruct (combined_rows _ _ _ _) as [|row rows]; [done|].
  by destruct (no_rows df_home_runs), (no_rows df_career_strikeouts).
Qed.

Lemma left_join_nil_inv (batting : list BattingRecord)
    (home_runs : list HomeRunRecord) (strikeouts : list StrikeoutRecord) :
  left_join batting home_runs strikeouts = [] → batting = [].
Proof.
  destruct batting as [|b batting]; [done|].
  unfold left_join. rewrite bind_cons.
  by destruct home_runs, strikeouts.
Qed.

Lemma elem_of_left_join (batting : list BattingRecord)
    (home_runs : list HomeRunRecord) (strikeouts : list StrikeoutRecord)
    (row : combined_row) :
  row ∈ left_join batting home_runs strikeouts ↔
  row.1.1 ∈ batting ∧ row.1.2 ∈ or_nothing home_runs ∧ row.2 ∈ or_nothing strikeouts.
Proof.
  unfold left_join. destruct row as [[b h] k]. simpl.
  rewrite list_elem_of_bind. split.
  - intros (b' & (h' & (k' & Hk & ?)%list_elem_of_bind & ?)%list_elem_of_bind & ?).
    apply list_elem_of_singleton in Hk. by simplify_eq.
  - intros (? & ? & ?). exists b. split; [|done].
    apply list_elem_of_bind. exists h. split; [|done].
    apply list_elem_of_bind. exists k. split; [|done]. by apply list_elem_of_singleton.
Qed.

Lemma elem_of_player_list (df : list BattingRecord) (player : string) :
  player ∈ player_list df ↔ ∃ r, r ∈ df ∧ batting_Name r = Some player.
Proof.
  unfold player_list, sorted_texts, unique, dropna.
  rewrite merge_sort_Permutation, elem_of_remove_dups, list_elem_of_omap.
  split.
  - intros (cell & Hcell & Heq). unfold id in Heq. subst cell.
    apply list_elem_of_fmap in Hcell as (r & ? & ?). by exists r.
  - intros (r & ? & ?). exists (Some player). split; [|done].
    apply list_elem_of_fmap. by exists r.
Qed.

(** C6.  The code breaks the claim at a player whose [Name] is the empty
    text.  The select box offers that player, first of all, and the player
    has a batting row; but the guard [if selected_player:] of line 163
    takes the empty text for no selection (the guards of the two charts
    before it test [is None]), and the section shows nothing where the
    claim has the player's joined rows. *)
Lemma combined_player_view_empty_name :
  player_list [unnamed_2001; Ruth_2001] = [""; "Ruth"] ∧
  filter (fun r => batting_Name r = Some "") [unnamed_2001; Ruth_2001]
  = [unnamed_2001] ∧
  combined_player_view [unnamed_2001; Ruth_2001] [] [] (Some "") = Nothing.
Proof. repeat split; vm_compute; reflexivity. Qed.

(** X21. For every player [Name] of the select box other than the
    empty text, the view shows the left join of the player's batting rows
    with the player's home-run and strikeout rows: every batting row is
    kept, a column of a table without rows is absent, and a row without
    partner gets NaN.  A player with batting rows for 2001 and 2002, one
    home-run row and no strikeout row gets two rows, both with that
    [Career_Home_Runs], and [Career_Strikeouts] absent or NaN. *)
Theorem combined_player_view_spec (df_batting : list BattingRecord)
    (df_home_runs : list HomeRunRecord) (df_career_strikeouts : list StrikeoutRecord)
    (player : string) :
  player ∈ player_list df_batting →
  player ≠ "" →
  let batting := filter (fun r => batting_Name r = Some player) df_batting in
  let home_runs := filter (fun r => hr_Name r = Some player) df_home_runs in
  let strikeouts := filter (fun r => k_Name r = Some player) df_career_strikeouts in
  let rows := left_join batting home_runs strikeouts in
  let view :=
    combined_player_view df_batting df_home_runs df_career_strikeouts (Some player) in
  view
  = Dataframe
      (Some ("Year", map (fun row : combined_row => cell_int (Year row.1.1)) rows))
      {| nrows := length rows;
         series :=
           [("Batting_Average",
             map (fun row : combined_row => cell_float (Batting_Average row.1.1)) rows)]
           ++ (if no_rows df_home_runs then []
               else [("Career_Home_Runs",
                      map (fun row : combined_row =>
                             cell_int (row.1.2 ≫= Career_Home_Runs)) rows)])
           ++ (if no_rows df_career_strikeouts then []
               else [("Career_Strikeouts",
                      map (fun row : combined_row =>
                             cell_int (row.2 ≫= Career_Strikeouts)) rows)]) |} ∧
  (∀ b, b ∈ batting → ∃ h k, (b, h, k) ∈ rows) ∧
  (∀ h, map Year batting ≡ₚ [Some 2001; Some 2002] →
        home_runs = [h] → strikeouts = [] →
        ∃ index body,
          view = Dataframe (Some ("Year", index)) body ∧
          index ≡ₚ [VInt 2001; VInt 2002] ∧
          nrows body = 2%nat ∧
          getitem body "Career_Home_Runs"
          = Some [cell_int (Career_Home_Runs h); cell_int (Career_Home_Runs h)] ∧
          (getitem body "Career_Strikeouts" = None ∨
           getitem body "Career_Strikeouts" = Some [NaN; NaN])).
Proof.
  intros Hselected Hplayer batting home_runs strikeouts rows view.
  assert (batting ≠ []) as Hbatting.
  { apply elem_of_player_list in Hselected as (r & Hr & Hname).
    intros Hnone. eapply (filter_nil_not_elem_of _ _ r Hnone); done. }
  assert (view = Dataframe
      (Some ("Year", map (fun row : combined_row => cell_int (Year row.1.1)) rows))
      {| nrows := length rows;
         series :=
           [("Batting_Average",
             map (fun row : combined_row => cell_float (Batting_Average row.1.1)) rows)]
           ++ (if no_rows df_home_runs then []
               else [("Career_Home_Runs",
                      map (fun row : combined_row =>
                             cell_int (row.1.2 ≫= Career_Home_Runs)) rows)])
           ++ (if no_rows df_career_strikeouts then []
               else [("Career_Strikeouts",
                      map (fun row : combined_row =>
                             cell_int (row.2 ≫= Career_Strikeouts)) rows)]) |})
    as Hview.
  { unfold view, rows, batting, home_runs, strikeouts.
    rewrite <- combined_rows_left_join.
    apply combined_player_view_shown; [done| |].
    - rewrite combined_rows_left_join. by intros ?%left_join_nil_inv.
    - intros ->. by apply Hbatting. }
  split; [exact Hview|]. split.
  - intros b Hb.
    destruct (or_nothing home_runs) as [|h hs] eqn:Hh;
      [by destruct home_runs|].
    destruct (or_nothing strikeouts) as [|k ks] eqn:Hk;
      [by destruct strikeouts|].
    exists h, k. apply elem_of_left_join. simpl.
    rewrite Hh, Hk. split; [done|]. split; by left.
  - intros h Hyears Hh Hk.
    assert (no_rows df_home_runs = false) as Hhr.
    { destruct df_home_runs; [|done]. unfold home_runs in Hh. by rewrite filter_nil in Hh. }
    rewrite Hhr in Hview. rewrite Hview. unfold rows. rewrite Hh, Hk.
    destruct batting as [|b1 [|b2 [|b3 batting']]];
      try (apply Permutation_length in Hyears; by simpl in Hyears).
    eexists _, _. split; [reflexivity|]. split; [|split; [done|split]].
    + change (map _ (left_join [b1; b2] [h] []))
        with (cell_int <$> map Year [b1; b2]).
      by rewrite Hyears.
    + by destruct (no_rows df_career_strikeouts).
    + destruct (no_rows df_career_strikeouts); [by left|by right].
Qed.

Lemma combined_player_view_spec_witness :
  ∃ index body,
    combined_player_view [Ruth_2001; Cobb_2001; Ruth_2002]
      [Mantle; mkHomeRun (Some "Ruth") (Some 714)] strikeouts_40_10_25 (Some "Ruth")
    = Dataframe (Some ("Year", index)) body ∧
    index ≡ₚ [VInt 2001; VInt 2002] ∧
    nrows body = 2%nat ∧
    getitem body "Career_Home_Runs" = Some [VInt 714; VInt 714] ∧
    (getitem body "Career_Strikeouts" = None ∨
     getitem body "Career_Strikeouts" = Some [NaN; NaN]).
Proof.
  destruct (combined_player_view_spec [Ruth_2001; Cobb_2001; Ruth_2002]
              [Mantle; mkHomeRun (Some "Ruth") (Some 714)] strikeouts_40_10_25 "Ruth")
    as (_ & _ & Hcase); [apply (bool_decide_unpack _); vm_compute; exact I|done|].
  apply (Hcase (mkHomeRun (Some "Ruth") (Some 714))); [|reflexivity|reflexivity].
  vm_compute. reflexivity.
Defined.

(** * Further properties *)

(** ** The importer and the store *)

Section importer_further.
Context `{Pandas}.
Implicit Types (df : DataFrame) (conn : connection) (fs : filesystem).

Lemma import_one_Database fs csv_name table_name tables :
  import_one fs csv_name table_name (Database tables)
  = let '(o, e, out) := import_plan fs csv_name table_name in
    (o, Database (apply_effect e table_name tables), out).
Proof.
  unfold import_one, import_plan.
  destruct (csv_file fs csv_name) as [text|]; [|done].
  destruct (read_csv text) as [df|]; [|done]. simpl.
  destruct (negb _); [done|]. by destruct (create_table_ok _).
Qed.

Lemma import_one_NotADatabase fs csv_name table_name :
  (import_one fs csv_name table_name NotADatabase).1.2 = NotADatabase.
Proof.
  unfold import_one.
  destruct (csv_file fs csv_name) as [text|]; [|done].
  by destruct (read_csv text).
Qed.

Lemma create_table_ok_NoDup df : create_table_ok df → NoDup (columns df).
Proof.
  unfold create_table_ok. rewrite bool_decide_spec. intros [_ Hnd].
  by apply NoDup_fmap_1 in Hnd.
Qed.

Lemma import_plan_Put fs csv_name table_name o df out :
  import_plan fs csv_name table_name = (o, Put df, out) →
  sqlite_table df ∧
  ∃ text parsed, csv_file fs csv_name = Some text ∧ read_csv text = Some parsed ∧
                 df = prepare table_name parsed ∧ o = Returned.
Proof.
  unfold import_plan.
  destruct (csv_file fs csv_name) as [text|]; [|done].
  destruct (read_csv text) as [parsed|] eqn:Hread; [|done]. cbv zeta.
  destruct (forallb _ _) eqn:Hnames; simpl; [|done].
  destruct (create_table_ok _) eqn:Hcreate; [|done].
  intros [= <- <- <-]. split.
  - split; by apply Is_true_true.
  - by exists text, parsed.
Qed.

Lemma apply_effect_schema_ok e table_name tables :
  (∀ df, e = Put df → sqlite_table df) →
  schema_ok (Database tables) →
  schema_ok (Database (apply_effect e table_name tables)).
Proof.
  intros Hput Hok t df. simpl. destruct e as [|df'|]; simpl.
  - apply Hok.
  - destruct (decide (table_name = t)) as [->|Hne].
    + rewrite lookup_insert_eq. intros [= <-]. by apply Hput.
    + rewrite lookup_insert_ne by done. apply (Hok t).
  - destruct (decide (table_name = t)) as [->|Hne].
    + by rewrite lookup_delete_eq.
    + rewrite lookup_delete_ne by done. apply (Hok t).
Qed.

Lemma import_one_schema_ok fs csv_name table_name conn :
  schema_ok conn → schema_ok (import_one fs csv_name table_name conn).1.2.
Proof.
  intros Hok. destruct conn as [|tables].
  - by rewrite import_one_NotADatabase.
  - rewrite import_one_Database.
    destruct (import_plan fs csv_name table_name) as [[o e] out] eqn:Hplan. simpl.
    apply apply_effect_schema_ok; [|done].
    intros df ->. by apply import_plan_Put in Hplan as [? _].
Qed.

Lemma import_each_schema_ok fs (pairs : list (string * string)) conn :
  schema_ok conn → schema_ok (import_each fs pairs conn).1.2.
Proof.
  revert conn. induction pairs as [|[csv t] rest IH]; intros conn Hok; [done|].
  simpl. pose proof (import_one_schema_ok fs csv t conn Hok) as Hone.
  destruct (import_one fs csv t conn) as [[[|] conn1] out1]; simpl in *; [|done].
  specialize (IH conn1 Hone).
  by destruct (import_each fs rest conn1) as [[o conn2] out2].
Qed.

(** X1. The importer keeps the store well-formed: if every table has
    column names pandas and SQLite accept (none empty, none with a NUL, no
    two equal up to ASCII case, at least one), that still holds after
    [main], however it ends.  In particular the column names of every
    table are distinct, which is what [read_table] relies on. *)
Theorem main_schema_ok fs (db : connection) :
  schema_ok db →
  schema_ok (main fs db).1.2 ∧
  ∀ t df, read_sql_query (main fs db).1.2 t = Some df → NoDup (columns df).
Proof.
  intros Hok.
  assert (schema_ok (main fs db).1.2) as Hmain.
  { unfold main. destruct (negb _); [done|].
    pose proof (import_each_schema_ok fs REQUIRED db Hok) as Heach.
    destruct (import_each fs REQUIRED db) as [[[|] conn] out]; simpl in *; [|done].
    by destruct (table_names conn). }
  split; [done|]. intros t df Hdf.
  destruct (Hmain t df Hdf) as [_ Hcreate]. by apply create_table_ok_NoDup.
Qed.
End importer_further.

Lemma schema_ok_empty : schema_ok (Database ∅).
Proof. intros t df Hdf. simpl in Hdf. by rewrite lookup_empty in Hdf. Qed.

Lemma main_schema_ok_witness :
  schema_ok (@main plain_pandas two_files (Database ∅)).1.2 ∧
  ∀ t df, read_sql_query (@main plain_pandas two_files (Database ∅)).1.2 t = Some df →
          NoDup (columns df).
Proof. apply (@main_schema_ok plain_pandas two_files (Database ∅)), schema_ok_empty. Defined.

Section importer_reader.
Context `{Pandas}.
Implicit Types (df : DataFrame) (conn : connection) (fs : filesystem).

Lemma columns_normalized_contents table_name df :
  columns (normalized_contents table_name df) = map normalize_column (columns df).
Proof.
  unfold columns, normalized_contents. cbn [series]. rewrite !map_map.
  apply map_ext. intros [c d]. unfold declared_cast. cbn [fst snd].
  by destruct (dict_get _ _).
Qed.

Lemma import_one_Returned_stored fs csv_name table_name conn conn' out text parsed :
  csv_file fs csv_name = Some text →
  read_csv text = Some parsed →
  import_one fs csv_name table_name conn = (Returned, conn', out) →
  read_sql_query conn' table_name = Some (normalized_contents table_name parsed) ∧
  NoDup (columns (normalized_contents table_name parsed)).
Proof.
  intros Hfile Hread Himport.
  rewrite (import_one_load _ _ _ _ _ _ Hfile Hread) in Himport.
  destruct conn as [|tables]; [done|]. cbn [to_sql] in Himport.
  destruct (negb _); [done|].
  destruct (create_table_ok _) eqn:Hcreate; [|done].
  injection Himport as <- _. rewrite <- prepare_normalized_contents. split.
  - simpl. by rewrite lookup_insert_eq.
  - by apply create_table_ok_NoDup, Is_true_true.
Qed.

(** X2. Import, then read.  After [import_one] has read a CSV and returned,
    [read_table] on that table does not fall back for a missing table: if
    some normalized header is an expected column, the result has exactly
    the expected columns found among the normalized headers, in expected
    order, and as many rows as the CSV had; if none is, the result is the
    empty frame with the expected columns. *)
Theorem import_then_read fs (csv_name table_name text : string) conn conn' out
    (parsed : DataFrame) (cols : list string) :
  csv_file fs csv_name = Some text →
  read_csv text = Some parsed →
  import_one fs csv_name table_name conn = (Returned, conn', out) →
  let headers := map normalize_column (columns parsed) in
  let result := read_table conn' table_name cols in
  match filter (fun c => c ∈ headers) cols with
  | [] => result = DataFrame_columns cols
  | present =>
      columns result = present ∧
      nrows result = nrows parsed ∧
      ∀ c, c ∈ present →
           getitem result c = getitem (normalized_contents table_name parsed) c
  end.
Proof.
  intros Hfile Hread Himport. cbv zeta.
  destruct (import_one_Returned_stored _ _ _ _ _ _ _ _ Hfile Hread Himport)
    as [Hstored Hdistinct].
  rewrite <- (columns_normalized_contents table_name parsed).
  unfold read_table. rewrite Hstored.
  fold (present_columns (normalized_contents table_name parsed) cols).
  pose proof (present_columns_Forall (normalized_contents table_name parsed) cols)
    as Hall.
  destruct (present_columns _ cols) as [|c0 present] eqn:Hpresent; [done|].
  rewrite (getitem_list_series _ _ Hdistinct Hall).
  split; [|split; [done|]].
  - unfold columns at 1. cbn [series]. rewrite map_map. apply map_id.
  - intros c Hc.
    rewrite (getitem_tabulated _
               (fun c => default [] (getitem (normalized_contents table_name parsed) c))
               (c0 :: present) c Hc).
    rewrite Forall_forall in Hall.
    by destruct (getitem_is_Some _ c (Hall c Hc)) as [d ->].
Qed.

(** X3. What the importer does to the columns of a CSV.  Their number,
    their order and the number of rows are kept; every label is
    normalized; a column whose normalized label has no declared type for
    the table, or whose cast raises, is stored with the values parsed; a
    column whose cast succeeds is stored with the cast values. *)
Theorem prepare_columns (table_name : string) (df : DataFrame) :
  nrows (prepare table_name df) = nrows df ∧
  columns (prepare table_name df) = map normalize_column (columns df) ∧
  ∀ i c data,
    series df !! i = Some (c, data) →
    ∃ stored,
      series (prepare table_name df) !! i = Some (normalize_column c, stored) ∧
      match dict_get CSV_DTYPES table_name ≫= (fun d => dict_get d (normalize_column c)) with
      | None => stored = data
      | Some typ =>
          match astype typ data with
          | None => stored = data
          | Some cast => stored = cast
          end
      end.
Proof.
  rewrite prepare_normalized_contents. split; [done|].
  split; [apply columns_normalized_contents|].
  intros i c data Hi. unfold normalized_contents. cbn [series].
  change (map ?f ?l) with (f <$> l). rewrite list_lookup_fmap, Hi.
  unfold declared_cast. simpl.
  destruct (dict_get CSV_DTYPES table_name) as [dtypes|]; simpl.
  - destruct (dict_get dtypes (normalize_column c)) as [typ|]; simpl.
    + eexists. split; [reflexivity|]. unfold astype_ignore.
      by destruct (astype typ data).
    + by exists data.
  - by exists data.
Qed.
End importer_reader.

Lemma import_then_read_witness :
  let conn' :=
    (@import_one plain_pandas two_files "home_runs.csv" "home_runs"
       (Database old_store)).1.2 in
  let result := read_table conn' "home_runs" EXPECTED_home_runs in
  columns result = ["Name"; "Career_Home_Runs"] ∧
  nrows result = 2%nat ∧
  ∀ c, c ∈ ["Name"; "Career_Home_Runs"] →
       getitem result c
       = getitem (@normalized_contents plain_pandas "home_runs"
                    {| nrows := 2;
                       series := [("Name", [VStr "Ruth"; VStr "Aaron"]);
                                  (" Career Home Runs", [VInt 714; VInt 755])] |}) c.
Proof.
  intros conn' result.
  pose proof (@import_then_read plain_pandas two_files "home_runs.csv" "home_runs"
                (line "Name, Career Home Runs" +:+ line "Ruth,714" +:+ line "Aaron,755")
                (Database old_store) conn'
                (@import_one plain_pandas two_files "home_runs.csv" "home_runs"
                   (Database old_store)).2
                {| nrows := 2;
                   series := [("Name", [VStr "Ruth"; VStr "Aaron"]);
                              (" Career Home Runs", [VInt 714; VInt 755])] |}
                EXPECTED_home_runs
                ltac:(vm_compute; reflexivity)
                ltac:(vm_compute; reflexivity)
                ltac:(vm_compute; reflexivity)) as Hspec.
  cbv zeta in Hspec.
  change (filter _ EXPECTED_home_runs) with ["Name"; "Career_Home_Runs"] in Hspec.
  exact Hspec.
Defined.

Lemma prepare_columns_witness :
  ∃ stored,
    series (@prepare plain_pandas "home_runs"
              {| nrows := 1;
                 series := [("Name", [NaN]); ("Career Home Runs", [VStr "many"])] |}) !! 1%nat
    = Some ("Career_Home_Runs", stored) ∧
    stored = [VStr "many"].
Proof.
  destruct (@prepare_columns plain_pandas "home_runs"
              {| nrows := 1;
                 series := [("Name", [NaN]); ("Career Home Runs", [VStr "many"])] |})
    as (_ & _ & Hcolumn).
  destruct (Hcolumn 1%nat "Career Home Runs" [VStr "many"] eq_refl)
    as (stored & Hstored & Hcast).
  exists stored. split; [exact Hstored|exact Hcast].
Defined.

Section importer_runs.
Context `{Pandas}.
Implicit Types (df : DataFrame) (conn : connection) (fs : filesystem).

Lemma replace_spaces_no_space (s : string) :
  " "%char ∉ list_ascii_of_string (replace_spaces s).
Proof.
  unfold replace_spaces. induction s as [|a s IH]; simpl; [apply not_elem_of_nil|].
  apply not_elem_of_cons. split; [|done].
  destruct (byte_is a 32) eqn:Ha; [done|].
  intros <-. discriminate Ha.
Qed.

(** X4. No column name that reaches the store contains a space: the
    importer has replaced every one by an underscore. *)
Theorem prepare_no_space (table_name : string) (df : DataFrame) :
  Forall (fun c => " "%char ∉ list_ascii_of_string c) (columns (prepare table_name df)).
Proof.
  rewrite prepare_normalized_contents, columns_normalized_contents.
  change (map ?f ?l) with (f <$> l). apply Forall_fmap, Forall_true.
  intros c. apply replace_spaces_no_space.
Qed.

(** X5. Two headers that normalize to the same column name, or to names
    that differ only in ASCII case, make [import_one] raise: SQLite
    refuses the table. *)
Theorem import_one_colliding_headers fs (csv_name table_name text : string) conn
    (parsed : DataFrame) :
  csv_file fs csv_name = Some text →
  read_csv text = Some parsed →
  ¬ NoDup (map sqlite_fold_case (map normalize_column (columns parsed))) →
  (import_one fs csv_name table_name conn).1.1 = Raised.
Proof.
  intros Hfile Hread Hcollide.
  rewrite (import_one_load _ _ _ _ _ _ Hfile Hread).
  destruct conn as [|tables]; [done|]. cbn [to_sql].
  destruct (negb _); [done|].
  destruct (create_table_ok _) eqn:Hcreate; [|done].
  apply Is_true_true in Hcreate. unfold create_table_ok in Hcreate.
  rewrite bool_decide_spec in Hcreate. destruct Hcreate as [_ Hnd].
  rewrite prepare_normalized_contents, columns_normalized_contents in Hnd. done.
Qed.

Lemma import_each_app fs (before after : list (string * string)) conn :
  import_each fs (before ++ after) conn
  = match import_each fs before conn with
    | (Returned, conn1, out1) =>
        let '(o, conn2, out2) := import_each fs after conn1 in
        (o, conn2, out1 ++ out2)
    | (Raised, conn1, out1) => (Raised, conn1, out1)
    end.
Proof.
  revert conn. induction before as [|[csv t] before IH]; intros conn; simpl.
  - by destruct (import_each fs after conn) as [[o conn2] out2].
  - destruct (import_one fs csv t conn) as [[[|] conn1] out1]; [|done].
    rewrite IH.
    destruct (import_each fs before conn1) as [[[|] conn2] out2]; [|done].
    destruct (import_each fs after conn2) as [[o conn3] out3].
    by rewrite app_assoc.
Qed.

(** X6. A CSV that is there but cannot be parsed ends the run, unlike a
    missing one: [main] raises at that file, the files before it are
    imported, the tables of the files after it are not touched, and the
    list of tables is not printed. *)
Theorem main_unreadable_file fs (db conn1 : connection)
    (before after : list (string * string)) (csv_name table_name text : string)
    (out1 : list message) :
  CSV_DIR_exists fs = true →
  REQUIRED = before ++ (csv_name, table_name) :: after →
  import_each fs before db = (Returned, conn1, out1) →
  csv_file fs csv_name = Some text →
  read_csv text = None →
  main fs db = (Raised, conn1, out1).
Proof.
  intros Hdir Hsplit Hbefore Hfile Hread. unfold main.
  rewrite Hdir, Hsplit. cbn [negb]. rewrite import_each_app, Hbefore.
  cbn [import_each]. unfold import_one. rewrite Hfile, Hread.
  by rewrite app_nil_r.
Qed.

Lemma import_each_other fs (pairs : list (string * string)) conn t :
  t ∉ map snd pairs →
  read_sql_query (import_each fs pairs conn).1.2 t = read_sql_query conn t.
Proof.
  revert conn. induction pairs as [|[csv t'] rest IH]; intros conn Ht; [done|].
  simpl in Ht. apply not_elem_of_cons in Ht as [Hne Ht]. simpl.
  pose proof (import_one_other fs csv t' conn t Hne) as Hone.
  destruct (import_one fs csv t' conn) as [[[|] conn1] out1]; simpl in *; [|done].
  specialize (IH conn1 Ht).
  destruct (import_each fs rest conn1) as [[o conn2] out2]. simpl in *. congruence.
Qed.

(** X7. [main] changes no table but [batting_avg], [home_runs] and
    [career_strikeouts], however it ends. *)
Theorem main_other_tables fs (db : connection) (t : string) :
  t ∉ ["batting_avg"; "home_runs"; "career_strikeouts"] →
  read_sql_query (main fs db).1.2 t = read_sql_query db t.
Proof.
  intros Ht. unfold main. destruct (negb _); [done|].
  pose proof (import_each_other fs REQUIRED db t Ht) as Heach.
  destruct (import_each fs REQUIRED db) as [[[|] conn] out]; simpl in *; [|done].
  by destruct (table_names conn).
Qed.

Lemma apply_effect_twice e table_name tables :
  apply_effect e table_name (apply_effect e table_name tables)
  = apply_effect e table_name tables.
Proof.
  destruct e; simpl; [done|apply insert_insert_eq|apply delete_delete_eq].
Qed.

Lemma import_each_Database fs (pairs : list (string * string)) tables :
  ∃ tables', (import_each fs pairs (Database tables)).1.2 = Database tables'.
Proof.
  revert tables. induction pairs as [|[csv t] rest IH]; intros tables; [by eexists|].
  simpl. rewrite import_one_Database.
  destruct (import_plan fs csv t) as [[[|] e] out]; [|by eexists].
  destruct (IH (apply_effect e t tables)) as [tables' Htables'].
  destruct (import_each fs rest _) as [[o conn2] out2]. by exists tables'.
Qed.

(** Running the loop again on the store it left repeats the run. *)
Lemma import_each_twice fs (pairs : list (string * string)) conn :
  NoDup (map snd pairs) →
  import_each fs pairs (import_each fs pairs conn).1.2 = import_each fs pairs conn.
Proof.
  revert conn. induction pairs as [|[csv t] rest IH]; intros conn Hnd; [done|].
  simpl in Hnd. apply NoDup_cons in Hnd as [Ht Hnd].
  destruct conn as [|tables].
  { assert (∀ l, (import_each fs l NotADatabase).1.2 = NotADatabase) as Hstays.
    { induction l as [|[csv' t'] l IHl]; [done|]. simpl.
      pose proof (import_one_NotADatabase fs csv' t') as Hone.
      destruct (import_one fs csv' t' NotADatabase) as [[[|] c] o]; simpl in *;
        [|done].
      subst c. by destruct (import_each fs l NotADatabase) as [[? ?] ?]. }
    by rewrite Hstays. }
  cbn [import_each]. rewrite import_one_Database.
  destruct (import_plan fs csv t) as [[o1 e] out1] eqn:Hplan.
  destruct o1.
  - pose proof (IH (Database (apply_effect e t tables)) Hnd) as Hrest.
    pose proof (import_each_other fs rest (Database (apply_effect e t tables)) t Ht)
      as Hframe.
    destruct (import_each_Database fs rest (apply_effect e t tables))
      as [tables2 Htables2].
    destruct (import_each fs rest (Database (apply_effect e t tables)))
      as [[o conn2] out2] eqn:Heach.
    simpl in *. subst conn2. rewrite import_one_Database, Hplan.
    assert (apply_effect e t tables2 = tables2) as ->; [|by rewrite Hrest].
    simpl in Hframe. destruct e as [|df|]; simpl in *.
    + done.
    + apply insert_id. by rewrite Hframe, lookup_insert_eq.
    + apply delete_id. by rewrite Hframe, lookup_delete_eq.
  - simpl. by rewrite import_one_Database, Hplan, apply_effect_twice.
Qed.

(** X8. Running [main] a second time on unchanged files repeats the first
    run: it ends the same way, prints the same, and leaves the store as
    the first run left it. *)
Theorem main_twice fs (db : connection) :
  main fs (main fs db).1.2 = main fs db.
Proof.
  unfold main. destruct (negb (CSV_DIR_exists fs)) eqn:Hdir; [done|].
  assert (NoDup (map snd REQUIRED)) as Hnd
    by (apply (bool_decide_unpack _); vm_compute; exact I).
  pose proof (import_each_twice fs REQUIRED db Hnd) as Htwice.
  destruct (import_each fs REQUIRED db) as [[[|] conn] out] eqn:Heach.
  - destruct (table_names conn) as [names|] eqn:Hnames;
      cbn [fst snd] in *; by rewrite Htwice, Hnames.
  - cbn [fst snd] in *. by rewrite Htwice.
Qed.
End importer_runs.

Lemma import_one_colliding_headers_witness :
  (@import_one plain_pandas colliding_headers "home_runs.csv" "home_runs"
     (Database old_store)).1.1 = Raised.
Proof.
  apply (@import_one_colliding_headers plain_pandas colliding_headers
           "home_runs.csv" "home_runs"
           (line "Career Home Runs,Career_Home_Runs" +:+ line "1,2")
           (Database old_store)
           {| nrows := 1;
              series := [("Career Home Runs", [VInt 1]); ("Career_Home_Runs", [VInt 2])] |});
    [vm_compute; reflexivity..|].
  intros Hnd. vm_compute in Hnd. apply NoDup_cons in Hnd as [Hin _].
  apply Hin. by left.
Defined.

Lemma main_unreadable_file_witness :
  ∃ conn1 out1,
    @main plain_pandas empty_home_runs_file (Database old_store)
    = (Raised, conn1, out1) ∧
    is_Some (read_sql_query conn1 "batting_avg") ∧
    read_sql_query conn1 "career_strikeouts" = None.
Proof.
  eexists _, _. split.
  - apply (@main_unreadable_file plain_pandas empty_home_runs_file (Database old_store) _
             [("batting_avg.csv", "batting_avg")]
             [("career_strikeouts.csv", "career_strikeouts")]
             "home_runs.csv" "home_runs" "");
      [reflexivity|reflexivity|vm_compute; reflexivity|vm_compute; reflexivity
      |vm_compute; reflexivity].
  - split; [vm_compute; by eexists|vm_compute; reflexivity].
Defined.

Lemma main_other_tables_witness :
  read_sql_query (@main plain_pandas two_files (Database old_store)).1.2 "notes"
  = read_sql_query (Database old_store) "notes".
Proof.
  apply (@main_other_tables plain_pandas two_files (Database old_store) "notes").
  intros Hin. repeat (apply elem_of_cons in Hin as [Hin|Hin]; [discriminate Hin|]).
  by apply elem_of_nil in Hin.
Defined.

(** ** Column names *)

Lemma rev_app_app (s1 s2 s3 : string) :
  String.rev_app (s1 +:+ s2) s3 = String.rev_app s2 (String.rev_app s1 s3).
Proof. revert s3. induction s1 as [|a s1 IH]; intros s3; [done|]. apply IH. Qed.

Lemma rev_app_rev_app (s1 s2 s3 : string) :
  String.rev_app (String.rev_app s1 s2) s3 = String.rev_app s2 (s1 +:+ s3).
Proof. revert s2 s3. induction s1 as [|a s1 IH]; intros s2 s3; [done|]. simpl. by rewrite IH. Qed.

Lemma string_app_nil_r (s : string) : s +:+ "" = s.
Proof. induction s as [|a s IH]; [done|]. by rewrite <- IH at 2. Qed.

Lemma string_rev_involutive (s : string) : String.rev (String.rev s) = s.
Proof. unfold String.rev. rewrite rev_app_rev_app. simpl. apply string_app_nil_r. Qed.

Lemma rev_app_spec (s1 s2 : string) : String.rev_app s1 s2 = String.rev s1 +:+ s2.
Proof.
  unfold String.rev. revert s2. induction s1 as [|a s1 IH]; intros s2; [done|].
  simpl. rewrite (IH (String a "")), IH.
  clear. generalize (String.rev_app s1 ""). intros s.
  induction s as [|b s IHs]; [done|]. change (String b s +:+ ?t) with (String b (s +:+ t)).
  by rewrite IHs.
Qed.

Lemma string_rev_app (s1 s2 : string) :
  String.rev (s1 +:+ s2) = String.rev s2 +:+ String.rev s1.
Proof. unfold String.rev at 1. by rewrite rev_app_app, rev_app_spec. Qed.

Lemma map_bytes_rev_app f (s1 s2 : string) :
  map_bytes f (String.rev_app s1 s2) = String.rev_app (map_bytes f s1) (map_bytes f s2).
Proof. revert s2. induction s1 as [|a s1 IH]; intros s2; [done|]. apply IH. Qed.

Lemma replace_spaces_rev (s : string) :
  replace_spaces (String.rev s) = String.rev (replace_spaces s).
Proof. apply map_bytes_rev_app. Qed.

Section strip_facts.
Variable backwards : bool.

Lemma strip_leading_clean (s : string) :
  head_space backwards s = false → strip_leading backwards s = s.
Proof.
  destruct s as [|a [|b [|c rest]]]; simpl; [done| | |].
  - rewrite orb_false_r. by intros ->.
  - intros [-> [-> _]%orb_false_elim]%orb_false_elim. done.
  - intros [-> [-> ->]%orb_false_elim]%orb_false_elim. done.
Qed.

(** Stripping drops a prefix and leaves no white space at the head. *)
Lemma strip_leading_spec (n : nat) (s : string) :
  (String.length s ≤ n)%nat →
  head_space backwards (strip_leading backwards s) = false ∧
  ∃ dropped, s = dropped +:+ strip_leading backwards s.
Proof.
  revert s. induction n as [|n IH]; intros s Hlen.
  { destruct s; [|simpl in Hlen; lia]. split; [done|by exists ""]. }
  destruct (head_space backwards s) eqn:Hhead.
  2:{ rewrite strip_leading_clean by done. split; [done|by exists ""]. }
  destruct s as [|a rest]; [done|]. simpl in Hlen.
  cbn [strip_leading]. cbn [head_space] in Hhead.
  destruct (is_space1 a).
  { destruct (IH rest) as [Hclean [dropped Hdropped]]; [lia|].
    split; [done|]. exists (String a dropped). by rewrite Hdropped at 1. }
  destruct rest as [|b rest2]; [done|]. simpl in Hlen.
  destruct (if backwards then is_space2 b a else is_space2 a b).
  { destruct (IH rest2) as [Hclean [dropped Hdropped]]; [lia|].
    split; [done|]. exists (String a (String b dropped)). by rewrite Hdropped at 1. }
  destruct rest2 as [|c rest3]; [done|]. simpl in Hlen.
  destruct (if backwards then is_space3 c b a else is_space3 a b c); [|done].
  destruct (IH rest3) as [Hclean [dropped Hdropped]]; [lia|].
  split; [done|]. exists (String a (String b (String c dropped))).
  by rewrite Hdropped at 1.
Qed.

Lemma byte_is_underscore (a : ascii) (n : N) :
  n ≠ 95%N →
  byte_is (if byte_is a 32 then "_"%char else a) n = true → byte_is a n = true.
Proof.
  intros Hn. destruct (byte_is a 32); [|done].
  unfold byte_is. intros Heq%N.eqb_eq. by subst n.
Qed.

Lemma byte_in_underscore (a : ascii) (lo hi : N) :
  (hi < 95)%N ∨ (95 < lo)%N →
  byte_in (if byte_is a 32 then "_"%char else a) lo hi = true → byte_in a lo hi = true.
Proof.
  intros Hrange. destruct (byte_is a 32); [|done].
  unfold byte_in. intros [Hlo%N.leb_le Hhi%N.leb_le]%andb_prop.
  change (N_of_ascii "_") with 95%N in *. lia.
Qed.
End strip_facts.


Lemma byte_is_underscore_eq (a : ascii) (n : N) :
  n ≠ 95%N → n ≠ 32%N → byte_is (space_to_underscore a) n = byte_is a n.
Proof.
  intros H95 H32. unfold space_to_underscore.
  destruct (byte_is a 32) eqn:Ha; [|done].
  unfold byte_is in *. apply N.eqb_eq in Ha. rewrite Ha.
  change (N_of_ascii "_") with 95%N.
  destruct (N.eqb_spec 95 n), (N.eqb_spec 32 n); congruence.
Qed.

Lemma byte_in_underscore_eq (a : ascii) (lo hi : N) :
  (95 < lo)%N → byte_in (space_to_underscore a) lo hi = byte_in a lo hi.
Proof.
  intros Hlo. unfold space_to_underscore.
  destruct (byte_is a 32) eqn:Ha; [|done].
  unfold byte_is, byte_in in *. apply N.eqb_eq in Ha. rewrite Ha.
  change (N_of_ascii "_") with 95%N.
  assert ((lo <=? 95)%N = false) as -> by (apply N.leb_gt; lia).
  assert ((lo <=? 32)%N = false) as -> by (apply N.leb_gt; lia).
  done.
Qed.

Lemma is_space1_underscore (a : ascii) :
  is_space1 (space_to_underscore a) = true → is_space1 a = true.
Proof.
  unfold space_to_underscore. by destruct (byte_is a 32) eqn:Ha.
Qed.

Lemma is_space2_underscore (a b : ascii) :
  is_space2 (space_to_underscore a) (space_to_underscore b) = is_space2 a b.
Proof. unfold is_space2. by rewrite !byte_is_underscore_eq. Qed.

Lemma is_space3_underscore (a b c : ascii) :
  is_space3 (space_to_underscore a) (space_to_underscore b) (space_to_underscore c)
  = is_space3 a b c.
Proof.
  unfold is_space3.
  by rewrite !byte_is_underscore_eq, !byte_in_underscore_eq.
Qed.

Lemma head_space_replace_spaces (backwards : bool) (s : string) :
  head_space backwards s = false → head_space backwards (replace_spaces s) = false.
Proof.
  unfold replace_spaces. fold space_to_underscore.
  change (fun a => if byte_is a 32 then "_"%char else a) with space_to_underscore.
  destruct s as [|a [|b [|c rest]]]; cbn [map_bytes head_space]; [done| | |].
  - rewrite !orb_false_r. intros Ha.
    destruct (is_space1 (space_to_underscore a)) eqn:Hfa; [|done].
    apply is_space1_underscore in Hfa. congruence.
  - rewrite !orb_false_r. intros [Ha Hab]%orb_false_elim.
    destruct (is_space1 (space_to_underscore a)) eqn:Hfa;
      [apply is_space1_underscore in Hfa; congruence|].
    destruct backwards; by rewrite is_space2_underscore.
  - intros [Ha [Hab Habc]%orb_false_elim]%orb_false_elim.
    destruct (is_space1 (space_to_underscore a)) eqn:Hfa;
      [apply is_space1_underscore in Hfa; congruence|].
    destruct backwards; by rewrite is_space2_underscore, is_space3_underscore, Hab, Habc.
Qed.

Lemma head_space_prefix (backwards : bool) (p q : string) :
  head_space backwards (p +:+ q) = false → head_space backwards p = false.
Proof.
  destruct p as [|a [|b [|c rest]]]; [done| | |done].
  - change (String a "" +:+ q) with (String a q). cbn [head_space].
    intros [-> _]%orb_false_elim. done.
  - change (String a (String b "") +:+ q) with (String a (String b q)).
    cbn [head_space]. intros [-> [-> _]%orb_false_elim]%orb_false_elim. done.
Qed.

Lemma replace_spaces_twice (s : string) :
  replace_spaces (replace_spaces s) = replace_spaces s.
Proof.
  unfold replace_spaces. induction s as [|a s IH]; [done|].
  cbn [map_bytes]. rewrite IH. f_equal.
  by destruct (byte_is a 32) eqn:Ha; [|rewrite Ha].
Qed.

(** The text [strip] returns has no white space at either end. *)
Lemma strip_clean (s : string) :
  head_space false (strip s) = false ∧ head_space true (String.rev (strip s)) = false.
Proof.
  unfold strip.
  destruct (strip_leading_spec false (String.length s) s) as [Hfront _]; [done|].
  set (w := strip_leading false s) in *.
  destruct (strip_leading_spec true (String.length (String.rev w)) (String.rev w))
    as [Hback [dropped Hdropped]]; [done|].
  set (v := strip_leading true (String.rev w)) in *.
  split; [|by rewrite string_rev_involutive].
  apply (head_space_prefix false _ (String.rev dropped)).
  by rewrite <- string_rev_app, <- Hdropped, string_rev_involutive.
Qed.

Lemma strip_of_clean (s : string) :
  head_space false s = false → head_space true (String.rev s) = false →
  strip s = s.
Proof.
  intros Hfront Hback. unfold strip.
  rewrite (strip_leading_clean false) by done.
  rewrite (strip_leading_clean true) by done.
  apply string_rev_involutive.
Qed.

(** X9. Normalizing a column name that is already normalized changes
    nothing: a CSV whose headers are the stored column names is imported
    under the same names. *)
Theorem normalize_column_idempotent (c : string) :
  normalize_column (normalize_column c) = normalize_column c.
Proof.
  unfold normalize_column.
  destruct (strip_clean c) as [Hfront Hback].
  rewrite (strip_of_clean (replace_spaces (strip c))).
  - apply replace_spaces_twice.
  - by apply head_space_replace_spaces.
  - rewrite <- replace_spaces_rev. by apply head_space_replace_spaces.
Qed.

(** ** The sidebar options *)

Lemma StronglySorted_strict {A} (R R' : relation A) (l : list A) :
  (∀ a b, R a b → a ≠ b → R' a b) →
  StronglySorted R l → NoDup l → StronglySorted R' l.
Proof.
  intros Hstrict. induction 1 as [|x l Hsorted IH Hall]; intros Hnd; [constructor|].
  apply NoDup_cons in Hnd as [Hx Hnd]. constructor; [by apply IH|].
  rewrite Forall_forall in Hall. apply Forall_forall. intros y Hy.
  apply Hstrict; [by apply Hall|]. by intros ->.
Qed.

Lemma sorted_unique_ints (col : list (option Z)) :
  StronglySorted Z.lt (sorted_ints (unique (dropna col))).
Proof.
  unfold sorted_ints, unique. apply (StronglySorted_strict Z.le).
  - intros a b ??. lia.
  - apply StronglySorted_merge_sort; apply _.
  - rewrite merge_sort_Permutation. apply NoDup_remove_dups.
Qed.

Lemma sorted_unique_texts (col : list (option string)) :
  StronglySorted text_lt (sorted_texts (unique (dropna col))).
Proof.
  unfold sorted_texts, unique. apply (StronglySorted_strict String.le).
  - by intros a b ??.
  - apply StronglySorted_merge_sort; apply _.
  - rewrite merge_sort_Permutation. apply NoDup_remove_dups.
Qed.

Lemma elem_of_sorted_unique_texts (col : list (option string)) (t : string) :
  t ∈ sorted_texts (unique (dropna col)) ↔ Some t ∈ col.
Proof.
  unfold sorted_texts, unique, dropna.
  rewrite merge_sort_Permutation, elem_of_remove_dups, list_elem_of_omap.
  split; [|intros ?; by exists (Some t)].
  intros (cell & ? & Heq). unfold id in Heq. by subst cell.
Qed.

(** X10. The years offered in the sidebar are exactly the years that occur
    in the table, each once, in ascending order; a NaN year is not
    offered. *)
Theorem all_years_spec (df_batting : list BattingRecord) :
  StronglySorted Z.lt (all_years df_batting) ∧
  ∀ y, y ∈ all_years df_batting ↔ ∃ r, r ∈ df_batting ∧ Year r = Some y.
Proof. split; [apply sorted_unique_ints|apply elem_of_all_years]. Qed.

(** X11. The teams, the leagues and the players offered are exactly the
    texts that occur in their column, each once, in ascending order of
    their bytes; NaN is not offered. *)
Theorem text_options_spec (df_batting : list BattingRecord)
    (df_career_strikeouts : list StrikeoutRecord) :
  (StronglySorted text_lt (all_teams df_batting) ∧
   ∀ t, t ∈ all_teams df_batting ↔ ∃ r, r ∈ df_batting ∧ Team r = Some t) ∧
  (StronglySorted text_lt (leagues df_career_strikeouts) ∧
   ∀ l, l ∈ leagues df_career_strikeouts ↔
        ∃ r, r ∈ df_career_strikeouts ∧ League r = Some l) ∧
  (StronglySorted text_lt (player_list df_batting) ∧
   ∀ p, p ∈ player_list df_batting ↔ ∃ r, r ∈ df_batting ∧ batting_Name r = Some p).
Proof.
  split; [|split]; (split; [apply sorted_unique_texts|]).
  - apply elem_of_all_teams.
  - intros l. unfold leagues. rewrite elem_of_sorted_unique_texts, list_elem_of_fmap.
    split; [intros (r & ? & ?); by exists r|intros (r & ? & ?); by exists r].
  - apply elem_of_player_list.
Qed.

(** ** The views *)

Lemma no_rows_false {A} (df : list A) : no_rows df = false → df ≠ [].
Proof. by destruct df. Qed.

(** X12. No view hands an empty table to its chart: whenever the time
    series, the ranking or the cumulative series would have no row, the
    page shows a note instead. *)
Theorem views_never_chart_nothing `{Argsort} (df_batting : list BattingRecord)
    (years : list Z) (teams : list string)
    (df_home_runs : list HomeRunRecord) (min_home_runs : option Z)
    (df_career_strikeouts : list StrikeoutRecord) (league : option string) :
  time_series df_batting years teams ≠ Rows [] ∧
  ranking_view df_home_runs min_home_runs ≠ Rows [] ∧
  cumulative_view df_career_strikeouts league ≠ Rows [].
Proof.
  split; [|split].
  - unfold time_series. destruct (no_rows df_batting); [done|]. cbv zeta.
    destruct (no_rows _) eqn:Hnone; [done|].
    apply no_rows_false in Hnone. congruence.
  - unfold ranking_view. destruct (no_rows df_home_runs); [done|].
    destruct min_home_runs as [threshold|]; [|done]. cbv zeta.
    destruct (no_rows _) eqn:Hnone; [done|].
    apply no_rows_false in Hnone. intros [= Hsorted]. apply Hnone.
    apply Permutation_nil_r. by rewrite <- Hsorted, sort_values_Permutation.
  - unfold cumulative_view. destruct (no_rows df_career_strikeouts); [done|].
    destruct league as [league|]; [|done]. cbv zeta.
    destruct (no_rows _) eqn:Hnone; [done|].
    apply no_rows_false in Hnone. intros [= Hzip]. apply Hnone.
    apply (f_equal length) in Hzip. rewrite length_zip in Hzip.
    unfold cumsum in Hzip. rewrite length_cumsum_from, length_map in Hzip.
    apply length_zero_iff_nil. simpl in Hzip. lia.
Qed.

(** X13. The time series shows the rows of the table that pass both
    selections, in table order, where an empty selection passes every row
    and a non-empty one passes the rows whose cell is among the selected
    values; so the order of the two filters does not matter. *)
Theorem time_series_rows (df_batting : list BattingRecord)
    (years : list Z) (teams : list string) :
  shown (time_series df_batting years teams)
  = filter (fun r => (years = [] ∨ isin (Year r) years) ∧
                     (teams = [] ∨ isin (Team r) teams)) df_batting.
Proof.
  assert (∀ df : list BattingRecord,
            shown (if no_rows df then Note "No rows match the selected Year/Team filters."
                   else Rows df) = df) as Hshown by (by intros [|??]).
  unfold time_series. destruct df_batting as [|r0 df]; [done|]. cbn [no_rows].
  cbv zeta. rewrite Hshown. set (table := r0 :: df).
  destruct years as [|y years], teams as [|t teams].
  - symmetry. apply filter_Forall_id, Forall_true. intros r. split; by left.
  - apply list_filter_iff. intros r. split; [intros ?; split; [by left|by right]|].
    by intros [_ [?|?]].
  - apply list_filter_iff. intros r. split; [intros ?; split; [by right|by left]|].
    by intros [[?|?] _].
  - rewrite list_filter_filter. apply list_filter_iff. intros r.
    split; [intros [? ?]; split; by right|]. by intros [[?|?] [?|?]].
Qed.

(** ** The home-run slider and the ranking *)







(** X15. Raising the threshold only removes players from the ranking:
    every row shown at a threshold is shown at each lower one. *)
Theorem ranking_view_antitone `{Argsort} (df_home_runs : list HomeRunRecord)
    (low high : Z) :
  low ≤ high →
  shown (ranking_view df_home_runs (Some high))
  ⊆ shown (ranking_view df_home_runs (Some low)).
Proof.
  intros Hle r. rewrite !shown_ranking_view, !sort_values_Permutation.
  rewrite !list_elem_of_filter. intros [Hge ?]. split; [|done].
  destruct (Career_Home_Runs r) as [v|]; [|done]. simpl in *.
  apply Is_true_true, Z.leb_le in Hge. apply Is_true_true, Z.leb_le. lia.
Qed.

Lemma ranking_view_antitone_witness :
  shown (@ranking_view stable_argsort [Williams; Mantle; McCovey] (Some 530))
  ⊆ shown (@ranking_view stable_argsort [Williams; Mantle; McCovey] (Some 100)).
Proof.
  apply (@ranking_view_antitone stable_argsort [Williams; Mantle; McCovey] 100 530).
  lia.
Defined.

(** ** The league selection and the cumulative series *)

(** X16. A league offered by the select box always has data: choosing it
    gives a series with at least one row, all of that league. *)
Theorem cumulative_view_offered_league `{Argsort}
    (df_career_strikeouts : list StrikeoutRecord) (league : string) :
  league ∈ leagues df_career_strikeouts →
  ∃ first rest,
    cumulative_view df_career_strikeouts (Some league) = Rows (first :: rest) ∧
    Forall (fun row => League row.1 = Some league) (first :: rest).
Proof.
  intros Hin. unfold leagues in Hin.
  apply elem_of_sorted_unique_texts, list_elem_of_fmap in Hin as (r & Hleague & Hr).
  set (df_k := sort_values Career_Strikeouts true
                 (filter (fun r => eq_scalar (League r) league) df_career_strikeouts)).
  assert (df_k ≡ₚ filter (fun r => eq_scalar (League r) league) df_career_strikeouts)
    as Hperm by apply sort_values_Permutation.
  assert (r ∈ df_k) as Hkept.
  { rewrite Hperm. apply list_elem_of_filter. split; [|done].
    by apply eq_scalar_spec. }
  assert (∀ t, Forall (fun row : StrikeoutRecord * option Z =>
                         League row.1 = Some league)
                      (zip df_k (cumsum t (map Career_Strikeouts df_k)))) as Hall.
  { intros t. apply Forall_forall. intros [row total] Hrow. simpl.
    apply elem_of_zip_l in Hrow. rewrite Hperm in Hrow.
    apply list_elem_of_filter in Hrow as [Hrow _]. by apply eq_scalar_spec. }
  unfold cumulative_view.
  destruct (no_rows df_career_strikeouts) eqn:Hempty.
  { apply no_rows_true in Hempty. rewrite Hempty in Hr. by apply elem_of_nil in Hr. }
  cbv zeta. fold df_k.
  destruct (no_rows df_k) eqn:Hnone.
  { apply no_rows_true in Hnone. rewrite Hnone in Hkept.
    by apply elem_of_nil in Hkept. }
  generalize (dtype_of (map Career_Strikeouts df_career_strikeouts)). intros t.
  specialize (Hall t).
  destruct (zip df_k (cumsum t (map Career_Strikeouts df_k)))
    as [|first rest] eqn:Hzip.
  - apply (f_equal length) in Hzip. rewrite length_zip in Hzip.
    unfold cumsum in Hzip. rewrite length_cumsum_from, length_map in Hzip.
    destruct df_k; [done|]. simpl in Hzip. lia.
  - by exists first, rest.
Qed.

Lemma cumulative_view_offered_league_witness :
  ∃ first rest,
    @cumulative_view stable_argsort strikeouts_40_10_25 (Some "NL")
    = Rows (first :: rest) ∧
    Forall (fun row => League row.1 = Some "NL") (first :: rest).
Proof.
  apply (@cumulative_view_offered_league stable_argsort strikeouts_40_10_25 "NL").
  apply (bool_decide_unpack _). vm_compute. exact I.
Defined.

Lemma running_sum_from_ge (total : Z) (col : list (option Z)) (j : nat) (b : Z) :
  Forall (fun cell => ∀ v, cell = Some v → 0 ≤ v) col →
  running_sum_from total col !! j = Some (Some b) → total ≤ b.
Proof.
  intros Hcol. revert total j.
  induction Hcol as [|cell col Hcell _ IH]; intros total j; [done|].
  destruct cell as [v|], j as [|j]; simpl.
  - intros [= <-]. specialize (Hcell v eq_refl). lia.
  - intros Hj%IH. specialize (Hcell v eq_refl). lia.
  - done.
  - apply IH.
Qed.

Lemma running_sum_from_mono (total : Z) (col : list (option Z)) (i j : nat) (a b : Z) :
  Forall (fun cell => ∀ v, cell = Some v → 0 ≤ v) col →
  (i ≤ j)%nat →
  running_sum_from total col !! i = Some (Some a) →
  running_sum_from total col !! j = Some (Some b) → a ≤ b.
Proof.
  intros Hcol. revert total i j.
  induction Hcol as [|cell col Hcell Hcol IH]; intros total i j Hij; [done|].
  destruct cell as [v|], i as [|i], j as [|j]; simpl; try lia.
  - by intros [= <-] [= <-].
  - intros [= <-] Hj. by apply (running_sum_from_ge _ col j b).
  - apply IH. lia.
  - done.
  - done.
  - apply IH. lia.
Qed.

Lemma running_sum_from_own (total : Z) (col : list (option Z)) (k : nat) (v a : Z) :
  Forall (fun cell => ∀ w, cell = Some w → 0 ≤ w) col →
  col !! k = Some (Some v) →
  running_sum_from total col !! k = Some (Some a) → total + v ≤ a.
Proof.
  intros Hcol. revert total k.
  induction Hcol as [|cell col Hcell _ IH]; intros total k; [done|].
  destruct cell as [w|], k as [|k]; simpl.
  - intros [= ->] [= <-]. lia.
  - intros Hk Ha. specialize (Hcell w eq_refl). specialize (IH _ _ Hk Ha). lia.
  - done.
  - apply IH.
Qed.

Lemma sum_abs_nonneg_values (col : list (option Z)) :
  Forall (fun cell => ∀ v, cell = Some v → 0 ≤ v) col → sum_abs col = sum_values col.
Proof.
  unfold sum_abs, sum_values, dropna.
  induction 1 as [|[v|] col Hcell _ IH]; [done| |done].
  csimpl. specialize (Hcell v eq_refl). rewrite IH. lia.
Qed.

(** X17. When no strikeout count of the league is negative and the
    league's total is no more than the column's dtype holds exactly
    (2^63 - 1 in [int64]; 2^53 in [float64]), the cumulative series never
    falls from one row to a later one, and each cumulative value is at
    least the row's own count. *)
Theorem cumulative_view_monotone `{Argsort}
    (df_career_strikeouts : list StrikeoutRecord) (league : string) :
  (∀ r v, r ∈ df_career_strikeouts → League r = Some league →
          Career_Strikeouts r = Some v → 0 ≤ v) →
  sum_values (map Career_Strikeouts
                (filter (fun r => League r = Some league) df_career_strikeouts))
  ≤ exact_up_to (dtype_of (map Career_Strikeouts df_career_strikeouts)) →
  let out := shown (cumulative_view df_career_strikeouts (Some league)) in
  (∀ i j r a s b, (i ≤ j)%nat →
     out !! i = Some (r, Some a) → out !! j = Some (s, Some b) → a ≤ b) ∧
  (∀ r a v, (r, Some a) ∈ out → Career_Strikeouts r = Some v → v ≤ a).
Proof.
  intros Hnonneg Hexact. cbv zeta. rewrite shown_cumulative_view. cbv zeta.
  rewrite (list_filter_iff (fun r => eq_scalar (League r) league)
             (fun r => League r = Some league))
    by (intros r; by rewrite eq_scalar_spec).
  revert Hexact. set (matching := filter _ df_career_strikeouts).
  generalize (dtype_of (map Career_Strikeouts df_career_strikeouts)).
  intros t Hexact.
  assert (sort_values Career_Strikeouts true matching ≡ₚ matching) as Hperm
    by apply sort_values_Permutation.
  set (df_k := sort_values Career_Strikeouts true matching) in *.
  assert (Forall (fun cell => ∀ v, cell = Some v → 0 ≤ v)
                 (map Career_Strikeouts df_k)) as Hcol.
  { apply Forall_forall. intros cell (r & -> & Hr)%list_elem_of_fmap v Hv.
    rewrite Hperm in Hr. apply list_elem_of_filter in Hr as [Hleague Hr]. eauto. }
  assert (cumsum t (map Career_Strikeouts df_k)
          = running_sum (map Career_Strikeouts df_k)) as ->.
  { apply cumsum_exact. rewrite sum_abs_nonneg_values by done.
    rewrite (sum_values_Permutation _ (map Career_Strikeouts matching)); [done|].
    by apply Permutation_map. }
  split.
  - intros i j r a s b Hij Hi Hj.
    apply lookup_zip_with_Some in Hi as (? & ? & [= <- <-] & _ & Hi).
    apply lookup_zip_with_Some in Hj as (? & ? & [= <- <-] & _ & Hj).
    by apply (running_sum_from_mono 0 (map Career_Strikeouts df_k) i j).
  - intros r a v Hin Hv.
    apply list_elem_of_lookup in Hin as (i & Hi).
    apply lookup_zip_with_Some in Hi as (? & ? & [= <- <-] & Hr & Hi).
    pose proof (running_sum_from_own 0 (map Career_Strikeouts df_k) i v a Hcol)
      as Hown.
    rewrite Z.add_0_l in Hown. apply Hown; [|done].
    change (map ?f ?l) with (f <$> l). by rewrite list_lookup_fmap, Hr, <- Hv.
Qed.

Lemma cumulative_view_monotone_witness :
  let out := shown (@cumulative_view stable_argsort strikeouts_40_10_25 (Some "AL")) in
  (∀ i j r a s b, (i ≤ j)%nat →
     out !! i = Some (r, Some a) → out !! j = Some (s, Some b) → a ≤ b) ∧
  (∀ r a v, (r, Some a) ∈ out → Career_Strikeouts r = Some v → v ≤ a).
Proof.
  apply (@cumulative_view_monotone stable_argsort strikeouts_40_10_25 "AL").
  - intros r v Hr _ Hv. unfold strikeouts_40_10_25 in Hr.
    repeat (apply elem_of_cons in Hr as [->|Hr];
            [simpl in Hv; injection Hv as <-; lia|]).
    by apply elem_of_nil in Hr.
  - vm_compute. discriminate.
Defined.

(** ** The player section *)

Lemma length_bind_const {A B} (f : A → list B) (n : nat) (l : list A) :
  (∀ x, length (f x) = n) → length (l ≫= f) = (length l * n)%nat.
Proof.
  intros Hf. induction l as [|x l IH]; [done|].
  rewrite bind_cons, length_app, IH, Hf. simpl. lia.
Qed.

Lemma length_or_nothing {A} (matches : list A) :
  length (or_nothing matches) = Nat.max 1 (length matches).
Proof.
  destruct matches as [|x matches]; [done|].
  unfold or_nothing. rewrite length_fmap. simpl. lia.
Qed.

(** X18. The table of the player section has one row for each combination
    of a batting row, a home-run row and a strikeout row of the player (a
    table without a row of the player counting as one); so a player listed
    twice in the home-run table has every season twice.  When the other
    two tables list the player at most once, the rows are the player's
    batting rows, once each, in table order. *)
Theorem combined_rows_count (df_batting : list BattingRecord)
    (df_home_runs : list HomeRunRecord) (df_career_strikeouts : list StrikeoutRecord)
    (player : string) :
  let rows := combined_rows df_batting df_home_runs df_career_strikeouts player in
  let seasons := filter (fun r => batting_Name r = Some player) df_batting in
  let home_runs := filter (fun r => hr_Name r = Some player) df_home_runs in
  let strikeouts := filter (fun r => k_Name r = Some player) df_career_strikeouts in
  length rows
  = (length seasons * Nat.max 1 (length home_runs) * Nat.max 1 (length strikeouts))%nat ∧
  ((length home_runs ≤ 1)%nat → (length strikeouts ≤ 1)%nat →
   map (fun row : combined_row => row.1.1) rows = seasons).
Proof.
  cbv zeta. rewrite combined_rows_left_join. unfold left_join.
  set (seasons := filter _ df_batting).
  set (home_runs := filter _ df_home_runs).
  set (strikeouts := filter _ df_career_strikeouts).
  split.
  - rewrite (length_bind_const _
               (Nat.max 1 (length home_runs) * Nat.max 1 (length strikeouts))); [lia|].
    intros b. rewrite (length_bind_const _ (Nat.max 1 (length strikeouts))).
    + by rewrite length_or_nothing.
    + intros h. rewrite (length_bind_const _ 1%nat); [|done].
      rewrite length_or_nothing. lia.
  - intros Hhr Hk.
    assert (∃ h, or_nothing home_runs = [h]) as [h ->].
    { destruct home_runs as [|h [|??]]; simpl in *; eauto; lia. }
    assert (∃ k, or_nothing strikeouts = [k]) as [k ->].
    { destruct strikeouts as [|k [|??]]; simpl in *; eauto; lia. }
    induction seasons as [|b seasons IH]; [done|].
    rewrite bind_cons. simpl. f_equal. exact IH.
Qed.

Lemma combined_rows_count_witness :
  map (fun row : combined_row => row.1.1)
      (combined_rows [Ruth_2001; Cobb_2001; Ruth_2002]
         [Mantle; mkHomeRun (Some "Ruth") (Some 714)] strikeouts_40_10_25 "Ruth")
  = [Ruth_2001; Ruth_2002].
Proof.
  apply (combined_rows_count [Ruth_2001; Cobb_2001; Ruth_2002]
           [Mantle; mkHomeRun (Some "Ruth") (Some 714)] strikeouts_40_10_25 "Ruth");
    vm_compute; lia.
Defined.

(** ** What counts as data *)

(** X19. The frame [read_table] returns is non-empty, so that the
    dashboard treats the table as loaded, exactly when the store has the
    table, the table has a row, and it has at least one of the expected
    columns; in every other case the dashboard sees an empty table. *)
Theorem read_table_empty (conn : connection) (table : string) (cols : list string) :
  empty (read_table conn table cols) = false ↔
  ∃ df, read_sql_query conn table = Some df ∧ nrows df ≠ 0%nat ∧
        ∃ c, c ∈ cols ∧ c ∈ columns df.
Proof.
  unfold read_table.
  destruct (read_sql_query conn table) as [df|]; [|split; [done|by intros (? & ? & _)]].
  fold (present_columns df cols).
  pose proof (present_columns_Forall df cols) as Hall.
  destruct (present_columns df cols) as [|c0 present] eqn:Hpresent.
  - split; [done|]. intros (? & [= <-] & _ & c & Hc & Hdf).
    assert (c ∈ present_columns df cols) as Hin by (by apply list_elem_of_filter).
    rewrite Hpresent in Hin. by apply elem_of_nil in Hin.
  - unfold getitem_list. rewrite decide_True by done.
    assert (c0 ∈ present_columns df cols) as [Hdf Hc0]%list_elem_of_filter
      by (rewrite Hpresent; by left).
    unfold empty. cbn [nrows series]. rewrite orb_false_iff, !Nat.eqb_neq. split.
    + intros [Hrows _]. exists df. eauto.
    + intros (? & [= <-] & Hrows & _). split; [done|].
      apply list_elem_of_fmap in Hdf as ([c' d] & -> & Hin).
      cbn [flat_map]. rewrite length_app.
      assert ((c', d) ∈ filter (fun s : string * list value => s.1 = (c', d).1)
                               (series df)) as Hkept
        by (by apply list_elem_of_filter).
      destruct (filter _ (series df)); [by apply elem_of_nil in Hkept|].
      simpl. lia.
Qed.

(** ** The page as it starts *)

Lemma filter_ext_elem_of {A} (P Q : A → Prop) `{∀ x, Decision (P x)}
    `{∀ x, Decision (Q x)} (l : list A) :
  (∀ x, x ∈ l → P x ↔ Q x) → filter P l = filter Q l.
Proof.
  induction l as [|x l IH]; intros Hext; [done|].
  rewrite !filter_cons, IH by (intros y Hy; apply Hext; by right).
  destruct (decide (P x)) as [HP|HP], (decide (Q x)) as [HQ|HQ]; try done;
    exfalso; apply (Hext x) in HP || apply (Hext x) in HQ; done || by left.
Qed.

(** X20. The two multiselects start with every offered year and team
    selected.  In that state the time series shows, in table order, the
    rows that have both a [Year] and a [Team]: a row with NaN in one of
    them is left out, unless the column is NaN in every row, in which case
    nothing is offered for it and it does not filter. *)
Theorem time_series_default_selection (df_batting : list BattingRecord) :
  shown (time_series df_batting (all_years df_batting) (all_teams df_batting))
  = filter (fun r => (all_years df_batting = [] ∨ is_Some (Year r)) ∧
                     (all_teams df_batting = [] ∨ is_Some (Team r))) df_batting.
Proof.
  assert (∀ df : list BattingRecord,
            shown (if no_rows df then Note "No rows match the selected Year/Team filters."
                   else Rows df) = df) as Hshown by (by intros [|??]).
  unfold time_series. destruct df_batting as [|r0 df]; [done|]. cbn [no_rows].
  cbv zeta. rewrite Hshown. set (table := r0 :: df).
  assert (∀ r, r ∈ table → isin (Year r) (all_years table) ↔ is_Some (Year r))
    as Hyear.
  { intros r Hr. rewrite isin_spec. split; [intros (y & -> & _); by eexists|].
    intros [y Hy]. exists y. split; [done|]. apply elem_of_all_years. by exists r. }
  assert (∀ r, r ∈ table → isin (Team r) (all_teams table) ↔ is_Some (Team r))
    as Hteam.
  { intros r Hr. rewrite isin_spec. split; [intros (t & -> & _); by eexists|].
    intros [t Ht]. exists t. split; [done|]. apply elem_of_all_teams. by exists r. }
  destruct (all_years table) as [|y ys] eqn:Hyears,
           (all_teams table) as [|t ts] eqn:Hteams.
  - symmetry. apply filter_Forall_id, Forall_true. intros r. split; by left.
  - apply filter_ext_elem_of. intros r Hr. rewrite (Hteam r Hr).
    split; [intros ?; split; [by left|by right]|]. by intros [_ [?|?]].
  - apply filter_ext_elem_of. intros r Hr. rewrite (Hyear r Hr).
    split; [intros ?; split; [by right|by left]|]. by intros [[?|?] _].
  - rewrite list_filter_filter. apply filter_ext_elem_of. intros r Hr.
    rewrite (Hyear r Hr), (Hteam r Hr).
    split; [intros [? ?]; split; by right|]. by intros [[?|?] [?|?]].
Qed.
